(** * Verification of the ECS core of rendering-api-comparer

    Shallow embedding of
    - [Engine::Utils::SparseSetBase] and [Engine::Utils::SparseSet], the
      header included as [Utils/SparseSet.h] (its text is the last part of
      [Visual/DirectXRenderer.cpp] in the source tree),
    - [Engine::GameController::run] ([Managers/GameController.cpp]),
    - [Engine::SystemsManager] ([Managers/SystemsManager.h]; the
      definitions of its member functions are not part of the source tree
      and are modelled from the specification, see [Module
      SystemsManager]). *)

From stdpp Require Import base option list sorting gmap strings.
From Stdlib Require Import ZArith Lia Ascii.

Local Open Scope Z_scope.

(** ** Outcomes of C++ code

    An access outside a vector and [pop_back] on an empty vector are
    undefined behaviour; the embedding makes that an explicit outcome. A
    loop is run on fuel, and running out of it is an outcome of its own. *)

Inductive outcome (A : Type) : Type :=
  | Ok (a : A)
  | Undefined
  | OutOfFuel.

Arguments Ok {A} a.
Arguments Undefined {A}.
Arguments OutOfFuel {A}.

#[global] Instance outcome_ret : MRet outcome := @Ok.

#[global] Instance outcome_bind : MBind outcome := λ A B k c,
  match c with
  | Ok a => k a
  | Undefined => Undefined
  | OutOfFuel => OutOfFuel
  end.

(** ** Machine integers

    [int] and [unsigned int] have 32 bits and [size_t] has 64. *)

Definition INT_MAX : Z := 2 ^ 31 - 1.
Definition SIZE_MODULUS : Z := 2 ^ 64.

(** Conversion of an integer value to [int]: reduction modulo [2^32] into
    [-2^31 .. 2^31 - 1]. *)
Definition to_int (z : Z) : Z := (z + 2 ^ 31) mod 2 ^ 32 - 2 ^ 31.

(** Arithmetic in [size_t]. *)
Definition to_size (z : Z) : Z := z mod SIZE_MODULUS.

(** ** std::vector *)

Module Vec.
Section Vec.
Context {A : Type}.

(** [v[i]] for an unsigned index. *)
Definition get (v : list A) (i : nat) : outcome A :=
  match v !! i with
  | Some x => Ok x
  | None => Undefined
  end.

(** [v[i] = x] for an unsigned index. *)
Definition set (v : list A) (i : nat) (x : A) : outcome (list A) :=
  if decide (i < length v)%nat then Ok (<[i := x]> v) else Undefined.

(** [v[i]] for an [int] index. A negative [int] converts to a [size_t]
    of at least [2^64 - 2^31], past the end of every vector. *)
Definition get_int (v : list A) (i : Z) : outcome A :=
  if i <? 0 then Undefined else get v (Z.to_nat i).

Definition set_int (v : list A) (i : Z) (x : A) : outcome (list A) :=
  if i <? 0 then Undefined else set v (Z.to_nat i) x.

Definition push_back (v : list A) (x : A) : list A := v ++ [x].

Definition pop_back (v : list A) : outcome (list A) :=
  match v with
  | [] => Undefined
  | _ => Ok (take (length v - 1) v)
  end.

Definition empty (v : list A) : bool :=
  match v with [] => true | _ => false end.
End Vec.
End Vec.

(** ** SparseSet<ElemType, IDType>

    [IDType] is a template parameter, the type of the entity identifiers.
    It is taken to be [std::size_t], the type with which the identifiers
    are compared in [_sparse.size() <= entity] and that indexes [_sparse]:
    an identifier is a number below [2^64], embedded as a [nat], and
    [entity + 1] wraps at [2^64]. [_sparse] is a [std::vector<int>]; its
    entries are embedded as [Z], and a [size_t] stored into it is
    narrowed by [to_int]. *)

Module SparseSet.
Section SparseSet.
Context {ElemType : Type}.

Record t : Type := mk {
  _sparse : list Z;            (* entity id -> index in the dense arrays, or -1 *)
  _denseEntities : list nat;   (* dense index -> entity id *)
  _dense : list ElemType       (* the stored elements *)
}.

Definition empty : t := mk [] [] [].

(** [return _sparse.size() > entity && _sparse[entity] != -1;] *)
Definition isPresent (entity : nat) (s : t) : bool :=
  bool_decide (entity < length (_sparse s))%nat &&
  match _sparse s !! entity with
  | Some i => negb (i =? -1)
  | None => false
  end.



(** Both overloads of [addElement] have the same body up to the move of
    the element. [entity + 1] is computed in [IDType]: for the largest
    identifier it is 0, the vector is emptied and the store that follows
    is outside it. *)
Definition addElement (entity : nat) (element : ElemType) (s : t)
  : outcome (bool * t) :=
  if isPresent entity s then Ok (false, s)
  else
    let sparse1 :=
      if bool_decide (length (_sparse s) ≤ entity)%nat
      then resize (Z.to_nat (to_size (Z.of_nat entity + 1))) (-1) (_sparse s)
      else _sparse s in
    sparse2 ← Vec.set sparse1 entity (to_int (Z.of_nat (length (_dense s))));
    Ok (true, mk sparse2
                 (Vec.push_back (_denseEntities s) entity)
                 (Vec.push_back (_dense s) element)).

(** [return _dense[_sparse[entity]];] *)
Definition getElement (entity : nat) (s : t) : outcome ElemType :=
  i ← Vec.get (_sparse s) entity;
  Vec.get_int (_dense s) i.

(** [while (!_sparse.empty() && _sparse[_sparse.size() - 1] == -1)
      _sparse.pop_back();] *)
Fixpoint trim (fuel : nat) (sparse : list Z) : outcome (list Z) :=
  match fuel with
  | O => OutOfFuel
  | S fuel' =>
      if negb (Vec.empty sparse) then
        (* the vector is not empty here: [size() - 1] does not wrap *)
        back ← Vec.get sparse (length sparse - 1)%nat;
        if back =? -1 then
          sparse' ← Vec.pop_back sparse;
          trim fuel' sparse'
        else Ok sparse
      else Ok sparse
  end.

(** The guard of [removeElement] is [if (!_isPresent(entity))], and
    neither class declares an [_isPresent]: the membership test that they
    declare, and that [addElement] calls, is [isPresent]. As it is
    written the function does not compile when it is instantiated. What
    the name would answer for an entity and a state of the set is a
    parameter of the function here. *)
Context (_isPresent : nat → t → bool).

Definition removeElement (entity : nat) (s : t) : outcome (bool * t) :=
  if negb (_isPresent entity s) then Ok (false, s)
  else
    denseIndex ← Vec.get (_sparse s) entity;
    let lastDenseIndex := to_int (to_size (Z.of_nat (length (_dense s)) - 1)) in
    (* swap the component to delete with the last one *)
    lastElem ← Vec.get_int (_dense s) lastDenseIndex;
    dense1 ← Vec.set_int (_dense s) denseIndex lastElem;
    lastEntity ← Vec.get_int (_denseEntities s) lastDenseIndex;
    denseEntities1 ← Vec.set_int (_denseEntities s) denseIndex lastEntity;
    (* new index of the swapped entity *)
    moved ← Vec.get_int denseEntities1 denseIndex;
    sparse1 ← Vec.set (_sparse s) moved denseIndex;
    (* remove the last element of the dense arrays *)
    dense2 ← Vec.pop_back dense1;
    denseEntities2 ← Vec.pop_back denseEntities1;
    (* mark the deleted entity as invalid *)
    sparse2 ← Vec.set sparse1 entity (-1);
    sparse3 ← trim (S (length sparse2)) sparse2;
    Ok (true, mk sparse3 denseEntities2 dense2).

End SparseSet.
Arguments t : clear implicits.
End SparseSet.

Import SparseSet.


(** ** The structural invariant

    A sparse set is related to the finite map from entity ids to values
    that it stores; the map gives a meaning to "that entity's value". *)

Definition is_int (i : Z) : Prop := - 2 ^ 31 ≤ i ≤ INT_MAX.

Section SparseSetModel.
Context {ElemType : Type}.
Implicit Types (s : SparseSet.t ElemType) (m : gmap nat ElemType).
Implicit Types (e : nat) (v : ElemType).






(** Sequences of [addElement] calls. *)
Fixpoint add_all (l : list (nat * ElemType)) s
  : outcome (SparseSet.t ElemType) :=
  match l with
  | [] => Ok s
  | (k, v) :: l' => r ← addElement k v s; add_all l' r.2
  end.



(** Sequences of calls; the guard of [removeElement] is a parameter. *)
Inductive op : Type :=
  | Add (k : nat) (v : ElemType)
  | Remove (k : nat).


Context (_isPresent : nat → SparseSet.t ElemType → bool).

Definition exec (o : op) s : outcome (bool * SparseSet.t ElemType) :=
  match o with
  | Add k v => addElement k v s
  | Remove k => removeElement _isPresent k s
  end.

Fixpoint run (ops : list op) s : outcome (SparseSet.t ElemType) :=
  match ops with
  | [] => Ok s
  | o :: ops' => r ← exec o s; run ops' r.2
  end.


(** Entities 1, 2, 3 added in that order with values [a], [b], [c]. *)
Definition three_entities (a b c : ElemType) : outcome (SparseSet.t ElemType) :=
  add_all [(1%nat, a); (2%nat, b); (3%nat, c)] empty.
End SparseSetModel.

(** ** ISystem and SystemsManager

    [SystemsManager.h] declares the members [_systems], [_removedSystems]
    and [_addedSystems], the comparator [LessPriority] and the member
    functions; the definitions of the member functions and of
    [LessPriority::operator()] are not among the sources. The member
    functions are modelled from the specification of the scheduler; the
    comparator is a parameter. *)

Module SystemsManager.
Section SystemsManager.
(** The type [float] of [dt]. *)
Context {F : Type}.

(** A system object: the address that identifies it (an [ISystem*]) and
    the value of its [getPriority()]. *)
Record ISystem : Type := System {
  address : nat;
  getPriority : Z
}.

(** The calls a system makes to the manager from inside its hook. *)
Inductive request : Type :=
  | CallAddSystem (system : ISystem)
  | CallRemoveSystem (system : nat).

(** The lifecycle hooks the manager invokes, in the order of invocation. *)
Inductive hook : Type :=
  | OnStart (system : nat)
  | OnUpdate (system : nat) (dt : F)
  | OnStop (system : nat).

(** The three data members that the header declares. [hooks] is not a
    member: it records the hooks invoked so far, and the statements speak
    of the invocations through it. *)
Record t : Type := mk {
  _systems : list ISystem;        (* std::set<std::unique_ptr<ISystem>, LessPriority> *)
  _removedSystems : list nat;     (* std::queue<ISystem*> *)
  _addedSystems : list ISystem;   (* std::queue<std::unique_ptr<ISystem>> *)
  hooks : list hook               (* the hooks invoked so far *)
}.

Definition empty : t := mk [] [] [] [].

(** What the [onUpdate] of the system at an address asks of the
    manager. *)
Context (onUpdate : nat → F → list request).

(** [LessPriority::operator()]: the header declares it as a function of
    the two systems that it compares; its body is not in the source
    tree, and it is a parameter. *)
Context (LessPriority : ISystem → ISystem → bool).



(** [std::set::insert] under the comparator: the element goes before
    the first greater one, and is dropped when an equivalent one is
    there. *)
Fixpoint set_insert (x : ISystem) (l : list ISystem) : list ISystem :=
  match l with
  | [] => [x]
  | y :: l' =>
      if LessPriority x y then x :: y :: l'
      else if LessPriority y x then y :: set_insert x l'
      else y :: l'
  end.

(** [std::set::erase] of the system at an address. *)
Definition set_erase (system : nat) (l : list ISystem) : list ISystem :=
  filter (λ y, address y ≠ system) l.

Definition active (m : t) : list nat := address <$> _systems m.

Definition invoke (h : hook) (m : t) : t :=
  mk (_systems m) (_removedSystems m) (_addedSystems m) (hooks m ++ [h]).

(** Modelled from the spec: the body of [addSystem] is missing; "system
    enters Pending, placed on the add-queue". *)
Definition addSystem (system : ISystem) (m : t) : t :=
  mk (_systems m) (_removedSystems m) (_addedSystems m ++ [system]) (hooks m).

(** Modelled from the spec: the body of [removeSystem] is missing; "if
    present in the active set, move it to the remove-queue; it continues
    to receive update calls until processRemovedSystems() runs". *)
Definition removeSystem (system : nat) (m : t) : t :=
  if bool_decide (system ∈ active m)
  then mk (_systems m) (_removedSystems m ++ [system]) (_addedSystems m)
          (hooks m)
  else m.

(** Modelled from the spec: the body of [processAddedSystems] is
    missing; this is what it does for one system of the add-queue:
    "invoke onStart, then insert into the active ordered set". The set is
    the [std::set] of the header, ordered by [LessPriority]. *)
Definition start (m : t) (system : ISystem) : t :=
  let m := invoke (OnStart (address system)) m in
  mk (set_insert system (_systems m)) (_removedSystems m)
     (_addedSystems m) (hooks m).

(** Modelled from the spec: the body of [processAddedSystems] is
    missing; "for every system on the add-queue, in enqueue order". *)
Definition processAddedSystems (m : t) : t :=
  foldl start
    (mk (_systems m) (_removedSystems m) [] (hooks m))
    (_addedSystems m).

(** Modelled from the spec: the body of [processRemovedSystems] is
    missing; this is what it does for one system of the remove-queue:
    "invoke onStop, erase from the active set, release ownership". *)
Definition finish (m : t) (system : nat) : t :=
  let m := invoke (OnStop system) m in
  mk (set_erase system (_systems m)) (_removedSystems m) (_addedSystems m)
     (hooks m).

(** Modelled from the spec: the body of [processRemovedSystems] is
    missing; "for every system on the remove-queue". *)
Definition processRemovedSystems (m : t) : t :=
  foldl finish
    (mk (_systems m) [] (_addedSystems m) (hooks m))
    (_removedSystems m).

(** A call made by a system from inside [onUpdate]. *)
Definition serve (m : t) (r : request) : t :=
  match r with
  | CallAddSystem system => addSystem system m
  | CallRemoveSystem system => removeSystem system m
  end.

(** Modelled from the spec: the body of [update] is missing; this is
    what it does for one active system: "invoke each system's
    onUpdate(deltaTime)". The calls that the system makes from [onUpdate]
    are served as they come. *)
Definition step (dt : F) (m : t) (y : ISystem) : t :=
  foldl serve (invoke (OnUpdate (address y) dt) m) (onUpdate (address y) dt).

(** Modelled from the spec: the body of [update] is missing; "iterate
    the active set strictly in priority order", which is the order of the
    [std::set]. *)
Definition update (dt : F) (m : t) : t :=
  foldl (step dt) m (_systems m).

(** Modelled from the spec: the body of [stop] is missing; "invoke
    onStop on every currently active system, without requiring them to
    go through the remove-queue". *)
Definition stop (m : t) : t :=
  foldl (λ m (y : ISystem), invoke (OnStop (address y)) m) m (_systems m).


(** The hooks invoked by a call that takes [m] to [m']. *)
Definition invoked (m m' : t) : list hook := drop (length (hooks m)) (hooks m').

(** Calls to the manager, for sequences of them. *)
Inductive call : Type :=
  | AddSystem (system : ISystem)
  | RemoveSystem (system : nat)
  | ProcessAddedSystems
  | ProcessRemovedSystems
  | Update (dt : F)
  | Stop.



End SystemsManager.
Arguments ISystem : clear implicits.
Arguments request : clear implicits.
Arguments hook : clear implicits.
Arguments t : clear implicits.
Arguments call : clear implicits.
End SystemsManager.

(** A comparator for the examples: the one that compares the priorities
    and nothing else. *)
Definition by_priority (lhs rhs : SystemsManager.ISystem) : bool :=
  SystemsManager.getPriority lhs <? SystemsManager.getPriority rhs.



Definition two_systems : SystemsManager.t Z :=
  SystemsManager.processAddedSystems by_priority
    (SystemsManager.addSystem (SystemsManager.System 2 20)
       (SystemsManager.addSystem (SystemsManager.System 1 10)
          SystemsManager.empty)).

(** ** GameController::run

    The controller calls its window, its clock and its systems manager.
    The manager is an interface here; the window and the clock are the
    environment. *)

Class SystemsManagerOps (F M : Type) : Type := {
  sm_processAddedSystems : M → M;
  sm_processRemovedSystems : M → M;
  sm_update : F → M → M;
  sm_stop : M → M
}.

#[global] Instance systems_manager_ops {F : Type}
    (onUpdate : nat → F → list SystemsManager.request)
    (LessPriority : SystemsManager.ISystem → SystemsManager.ISystem → bool)
  : SystemsManagerOps F (SystemsManager.t F) := {|
  sm_processAddedSystems := SystemsManager.processAddedSystems LessPriority;
  sm_processRemovedSystems := SystemsManager.processRemovedSystems;
  sm_update := SystemsManager.update onUpdate;
  sm_stop := SystemsManager.stop
|}.

(** A manager that records the [dt] of its updates, for the examples. *)
#[global] Instance recording_manager : SystemsManagerOps Z (list Z) := {|
  sm_processAddedSystems := id;
  sm_processRemovedSystems := id;
  sm_update := λ dt m, m ++ [dt];
  sm_stop := id
|}.

Module GameController.
Section GameController.
Context {F M : Type} `{!SystemsManagerOps F M}.

(** [float dt = 0] and [std::chrono::duration<float>(end - start).count()]
    for a difference of clock ticks. *)
Context (float_zero : F) (duration_count : Z → F).

(** The calls of [run], in the order in which they are made. *)
Inductive call : Type :=
  | WindowUpdate (needToExit : bool)
  | ProcessAddedSystems
  | ProcessRemovedSystems
  | ClockNow
  | Update (dt : F)
  | Stop.

(** What the environment does in one iteration: the result of
    [m_window.update()] and the clock ticks that pass during each
    call. *)
Record frame : Type := Frame {
  needToExit : bool;
  window_ticks : Z;
  added_ticks : Z;
  removed_ticks : Z;
  update_ticks : Z
}.

(** The member [m_systemsManager], the clock of the environment, and the
    record of the calls made so far. *)
Record t : Type := mk {
  m_systemsManager : M;
  clock : Z;
  calls : list call
}.

(** A call that takes [ticks] of the clock and acts on the manager. *)

Definition called (c : call) (ticks : Z) (f : M → M) (g : t) : t :=
  mk (f (m_systemsManager g)) (clock g + ticks) (calls g ++ [c]).

(** [std::chrono::high_resolution_clock::now()] *)
Definition now (g : t) : Z * t :=
  (clock g, mk (m_systemsManager g) (clock g) (calls g ++ [ClockNow])).

(** The [while (true)] loop; it goes on for as long as the environment
    has frames. *)
Fixpoint run_loop (frames : list frame) (dt : F) (g : t) : outcome t :=
  match frames with
  | [] => OutOfFuel
  | fr :: frames' =>
      let g := called (WindowUpdate (needToExit fr)) (window_ticks fr) id g in
      if needToExit fr then Ok g
      else
        let g := called ProcessAddedSystems (added_ticks fr)
                   sm_processAddedSystems g in
        let g := called ProcessRemovedSystems (removed_ticks fr)
                   sm_processRemovedSystems g in
        let '(start, g) := now g in
        let g := called (Update dt) (update_ticks fr) (sm_update dt) g in
        let '(end_, g) := now g in
        let elapsed := duration_count (end_ - start) in
        run_loop frames' elapsed g
  end.

Definition run (frames : list frame) (g : t) : outcome t :=
  g ← run_loop frames float_zero g;
  Ok (called Stop 0 sm_stop g).

(** One complete iteration, as a sequence of calls. *)
Definition tick (dt : F) : list call :=
  [WindowUpdate false; ProcessAddedSystems; ProcessRemovedSystems;
   ClockNow; Update dt; ClockNow].

(** The [dt] arguments of the [update] calls. *)
Definition update_arguments (l : list call) : list F :=
  omap (λ c, match c with Update dt => Some dt | _ => None end) l.

End GameController.
Arguments call : clear implicits.
Arguments t : clear implicits.
End GameController.

(** ** Utils::splitString ([Utils/BasicUtils.cpp])

    A [std::string] is the list of its characters. *)

Module BasicUtils.

(** How a call ends: with a value, with a [std::out_of_range] thrown, or
    with the fuel of its loop used up. *)
Inductive completion (A : Type) : Type :=
  | Returned (a : A)
  | ThrewOutOfRange
  | Unfinished.

Arguments Returned {A} a.
Arguments ThrewOutOfRange {A}.
Arguments Unfinished {A}.

(** [str.find(ch, pos)]: the first position not before [pos] that holds
    [ch]; [None] is [std::string::npos]. *)
Definition find (str : list ascii) (ch : ascii) (pos : nat) : option nat :=
  (λ found : nat * ascii, (pos + found.1)%nat)
    <$> list_find (λ x, x = ch) (drop pos str).

(** [str.substr(pos, len)], with [len = None] for the default [npos]: it
    throws when [pos] is past the end and takes what is there when [len]
    is too long. *)
Definition substr (str : list ascii) (pos : nat) (len : option nat)
  : completion (list ascii) :=
  if decide (length str < pos)%nat then ThrewOutOfRange
  else Returned (match len with
                 | Some n => take n (drop pos str)
                 | None => drop pos str
                 end).

(** The [while] loop and the [push_back] after it. [end - start] does not
    wrap: [find] returns a position that is not before [start]. *)
Fixpoint split_loop (fuel : nat) (str : list ascii) (delimiter : ascii)
    (result : list (list ascii)) (start : nat)
  : completion (list (list ascii)) :=
  match fuel with
  | O => Unfinished
  | S fuel' =>
      match find str delimiter start with
      | Some end_ =>
          match substr str start (Some (end_ - start)%nat) with
          | Returned part =>
              split_loop fuel' str delimiter (result ++ [part]) (end_ + 1)
          | ThrewOutOfRange => ThrewOutOfRange
          | Unfinished => Unfinished
          end
      | None =>
          match substr str start None with
          | Returned part => Returned (result ++ [part])
          | ThrewOutOfRange => ThrewOutOfRange
          | Unfinished => Unfinished
          end
      end
  end.

Definition splitString (str : list ascii) (delimiter : ascii)
  : completion (list (list ascii)) :=
  split_loop (S (length str)) str delimiter [] 0.

(** The parts put together again, with the delimiter between them. *)
Fixpoint join (delimiter : ascii) (parts : list (list ascii)) : list ascii :=
  match parts with
  | [] => []
  | part :: parts' =>
      match parts' with
      | [] => part
      | _ => part ++ delimiter :: join delimiter parts'
      end
  end.

(** The number of occurrences of a character. *)
Definition occurrences (ch : ascii) (str : list ascii) : nat :=
  length (filter (λ x, x = ch) str).

End BasicUtils.

(** ** DirectXRenderer: the texture cache and loadModelFromFile
    ([Visual/DirectXRenderer.cpp])

    The header [DirectXRenderer.h] and the macro [ASSERT] of
    [Utils/DebugMacros.h] are not in the source tree. The structs have the
    members that these functions read and write (their buffer members,
    which stay default-constructed here, are left out); whether a failed
    [ASSERT] ends the program is a parameter, and so is the helper
    [Utils::getKeys]. The files that [tinyobj::LoadObj] and
    [CreateWICTextureFromFile] read, the device that creates the buffers,
    and the path operations of [std::filesystem] are the environment. *)

(** The parts of tinyobjloader's result that the renderer reads. *)
Module tinyobj.
Section tinyobj.
Context {F : Type}.

Record index_t : Type := Index {
  vertex_index : Z;
  normal_index : Z;
  texcoord_index : Z
}.

(** [shape_t::mesh] *)
Record mesh_t : Type := Mesh {
  indices : list index_t;
  material_ids : list Z
}.

Record material_t : Type := Material {
  ambient : F * F * F;
  diffuse : F * F * F;
  specular : F * F * F;
  shininess : F;
  diffuse_texname : string
}.

Record attrib_t : Type := Attrib {
  vertices : list F;
  normals : list F;
  texcoords : list F
}.

(** What a successful [LoadObj] stores through its first three
    arguments. *)
Record loaded : Type := Loaded {
  attrib : attrib_t;
  shapes : list mesh_t;
  materials : list material_t
}.
End tinyobj.
Arguments material_t : clear implicits.
Arguments attrib_t : clear implicits.
Arguments loaded : clear implicits.
End tinyobj.

Module Renderer.

(** How a call ends. *)
Inductive ending (A : Type) : Type :=
  | Finished (a : A)
  | UndefinedBehaviour
  | AssertionAbort.

Arguments Finished {A} a.
Arguments UndefinedBehaviour {A}.
Arguments AssertionAbort {A}.

#[global] Instance ending_ret : MRet ending := @Finished.

#[global] Instance ending_bind : MBind ending := λ A B k c,
  match c with
  | Finished a => k a
  | UndefinedBehaviour => UndefinedBehaviour
  | AssertionAbort => AssertionAbort
  end.

(** [unsigned int] has 32 bits. *)
Definition to_uint (z : Z) : Z := z mod 2 ^ 32.

(** [IRenderer::DEFAULT_TEXTURE] *)
Definition DEFAULT_TEXTURE : string := "../../Models/default.png".

Section Renderer.
(** [float], the texture object ([ID3D11ShaderResourceView]) and the
    state of the device. *)
Context {F Tex Device : Type}.
(** [0.0f] and [1.0f - x]. *)
Context (float_zero : F) (one_minus : F → F).
(** Does a failed [ASSERT] end the program? *)
Context (assert_aborts : bool).
(** [tinyobj::LoadObj(..., filename, mtl_basedir)] and
    [DirectX::CreateWICTextureFromFile] for a file name: what they store
    on success, [None] on failure. *)
Context (LoadObj : string → string → option (tinyobj.loaded F)).
Context (CreateWICTextureFromFile : string → option Tex).
(** [std::filesystem::path(p).parent_path()] and [(dir / name).string()]. *)
Context (parent_path : string → string) (path_append : string → string → string).
(** [m_device->CreateBuffer] for a buffer of so many elements: whether it
    succeeds, and the device afterwards. *)
Context (CreateBuffer : Device → nat → bool * Device).

Record Vertex : Type := mkVertex {
  position : F * F * F;
  normal : F * F * F;
  texCoord : F * F
}.

Record SubMesh : Type := mkSubMesh {
  indices : list Z;            (* std::vector<unsigned int> *)
  materialId : Z
}.

Record Material : Type := mkMaterial {
  ambientColor : F * F * F;
  diffuseColor : F * F * F;
  specularColor : F * F * F;
  shininess : F;
  diffuseTextureId : string
}.

Record ModelData : Type := mkModelData {
  vertices : list Vertex;
  meshes : list SubMesh;
  materials : list Material
}.

Record t : Type := mk {
  m_textures : gmap string Tex;
  m_models : gmap string ModelData;
  m_defaultMaterial : Material;
  m_device : Device
}.

(** [Utils::getKeys] for [m_models] and for [m_textures]. *)
Context (getModelKeys : gmap string ModelData → list string).
Context (getTextureKeys : gmap string Tex → list string).

(** [ASSERT(condition, ...)] *)
Definition ASSERT (condition : bool) : ending unit :=
  if condition then Finished tt
  else if assert_aborts then AssertionAbort else Finished tt.

Definition loadTexture (filename : string) (r : t) : ending (bool * t) :=
  if bool_decide (is_Some (m_textures r !! filename)) then Finished (true, r)
  else
    let hr := CreateWICTextureFromFile filename in
    _ ← ASSERT (bool_decide (is_Some hr));
    match hr with
    | None => Finished (false, r)
    | Some texture =>
        Finished (true, mk (<[filename := texture]> (m_textures r))
                           (m_models r) (m_defaultMaterial r) (m_device r))
    end.

Definition unloadTexture (filename : string) (r : t) : bool * t :=
  match m_textures r !! filename with
  | None => (true, r)
  | Some _ => (true, mk (delete filename (m_textures r)) (m_models r)
                        (m_defaultMaterial r) (m_device r))
  end.

(** The result is a reference to a texture of the cache, [Some] of it.
    The last [return nullptr;] binds the reference that is returned to a
    temporary [ComPtr], which is gone when the function returns: the
    caller has a dangling reference, and the outcome is undefined. *)
Definition getTexture (textureId : string) (r : t) : ending (option Tex) :=
  let textureItr := m_textures r !! textureId in
  _ ← ASSERT (bool_decide (is_Some textureItr));
  match textureItr with
  | Some texture => Finished (Some texture)
  | None =>
      let defaultTextureItr := m_textures r !! DEFAULT_TEXTURE in
      _ ← ASSERT (bool_decide (is_Some defaultTextureItr));
      match defaultTextureItr with
      | Some texture => Finished (Some texture)
      | None => UndefinedBehaviour
      end
  end.

(** The loop over [materials] of [loadModelFromFile]. *)
Fixpoint load_materials (matDir : string) (mats : list (tinyobj.material_t F))
    (model : ModelData) (r : t) : ending (ModelData * t) :=
  match mats with
  | [] => Finished (model, r)
  | mat :: mats' =>
      '(textureId, r) ←
        (if bool_decide (tinyobj.diffuse_texname mat ≠ "")
         then
           let path := path_append matDir (tinyobj.diffuse_texname mat) in
           '(loaded, r) ← loadTexture path r;
           Finished (if loaded : bool then path
                     else diffuseTextureId (m_defaultMaterial r), r)
         else Finished (diffuseTextureId (m_defaultMaterial r), r));
      let matX := mkMaterial (tinyobj.ambient mat) (tinyobj.diffuse mat)
                    (tinyobj.specular mat) (tinyobj.shininess mat) textureId in
      load_materials matDir mats'
        (mkModelData (vertices model) (meshes model) (materials model ++ [matX])) r
  end.

(** An [int] expression: signed overflow is undefined. *)
Definition int_value (z : Z) : ending Z :=
  if bool_decide (is_int z) then Finished z else UndefinedBehaviour.

(** [array[factor * index + offset]] for a [std::vector<float>]. *)
Definition element (array : list F) (factor index offset : Z) : ending F :=
  product ← int_value (factor * index);
  i ← int_value (product + offset);
  if i <? 0 then UndefinedBehaviour
  else match array !! Z.to_nat i with
       | Some x => Finished x
       | None => UndefinedBehaviour
       end.

(** The body of the loop over the indices of a shape, up to the two
    [push_back]s. *)
Definition read_vertex (attrib : tinyobj.attrib_t F) (index : tinyobj.index_t)
  : ending Vertex :=
  x ← element (tinyobj.vertices attrib) 3 (tinyobj.vertex_index index) 0;
  y ← element (tinyobj.vertices attrib) 3 (tinyobj.vertex_index index) 1;
  z ← element (tinyobj.vertices attrib) 3 (tinyobj.vertex_index index) 2;
  normal ←
    (if 0 <=? tinyobj.normal_index index then
       nx ← element (tinyobj.normals attrib) 3 (tinyobj.normal_index index) 0;
       ny ← element (tinyobj.normals attrib) 3 (tinyobj.normal_index index) 1;
       nz ← element (tinyobj.normals attrib) 3 (tinyobj.normal_index index) 2;
       Finished (nx, ny, nz)
     else Finished (float_zero, float_zero, float_zero));
  texCoord ←
    (if 0 <=? tinyobj.texcoord_index index then
       u ← element (tinyobj.texcoords attrib) 2 (tinyobj.texcoord_index index) 0;
       v ← element (tinyobj.texcoords attrib) 2 (tinyobj.texcoord_index index) 1;
       Finished (u, one_minus v)
     else Finished (float_zero, float_zero));
  Finished (mkVertex (x, y, z) normal texCoord).

(** An index whose reads in [read_vertex] are inside the arrays: the
    vertex index always, the normal and the texture coordinate index
    when they are not negative. *)
Definition readable (attrib : tinyobj.attrib_t F) (index : tinyobj.index_t)
  : Prop :=
  0 ≤ tinyobj.vertex_index index ∧
  3 * tinyobj.vertex_index index + 2
    < Z.of_nat (length (tinyobj.vertices attrib)) `min` (INT_MAX + 1) ∧
  (0 ≤ tinyobj.normal_index index →
   3 * tinyobj.normal_index index + 2
     < Z.of_nat (length (tinyobj.normals attrib)) `min` (INT_MAX + 1)) ∧
  (0 ≤ tinyobj.texcoord_index index →
   2 * tinyobj.texcoord_index index + 1
     < Z.of_nat (length (tinyobj.texcoords attrib)) `min` (INT_MAX + 1)).

(** The loop over the indices of one shape: [model.vertices] and
    [mesh.indices] grow together. *)
Fixpoint load_indices (attrib : tinyobj.attrib_t F)
    (idx : list tinyobj.index_t) (verts : list Vertex) (mesh_indices : list Z)
  : ending (list Vertex * list Z) :=
  match idx with
  | [] => Finished (verts, mesh_indices)
  | index :: idx' =>
      vertex ← read_vertex attrib index;
      let verts := verts ++ [vertex] in
      load_indices attrib idx' verts
        (mesh_indices ++ [to_uint (Z.of_nat (length verts) - 1)])
  end.

(** [shape.mesh.material_ids.empty() ? -1 : shape.mesh.material_ids[0]] *)
Definition shape_material (shape : tinyobj.mesh_t) : Z :=
  match tinyobj.material_ids shape with
  | [] => -1
  | id :: _ => id
  end.

(** The loop over [shapes]. *)
Fixpoint load_shapes (attrib : tinyobj.attrib_t F) (shapes : list tinyobj.mesh_t)
    (model : ModelData) : ending ModelData :=
  match shapes with
  | [] => Finished model
  | shape :: shapes' =>
      '(verts, mesh_indices) ←
        load_indices attrib (tinyobj.indices shape) (vertices model) [];
      load_shapes attrib shapes'
        (mkModelData verts
           (meshes model ++ [mkSubMesh mesh_indices (shape_material shape)])
           (materials model))
  end.

Definition loadModelFromFile (model : ModelData) (filename : string) (r : t)
  : ending (bool * ModelData * t) :=
  let matDir := parent_path filename in
  let res := LoadObj filename matDir in
  _ ← ASSERT (bool_decide (is_Some res));
  match res with
  | None => Finished (false, model, r)
  | Some obj =>
      '(model, r) ← load_materials matDir (tinyobj.materials obj) model r;
      model ← load_shapes (tinyobj.attrib obj) (tinyobj.shapes obj) model;
      Finished (true, model, r)
  end.

(** The loop over [model.materials] of [createBuffersForModel]: a
    failure is asserted and nothing else. *)
Fixpoint create_material_buffers (mats : list Material) (device : Device)
  : ending Device :=
  match mats with
  | [] => Finished device
  | _ :: mats' =>
      let '(created, device) := CreateBuffer device 1 in
      _ ← ASSERT created;
      create_material_buffers mats' device
  end.

(** The loop over [model.meshes] of [createBuffersForModel]. *)
Fixpoint create_index_buffers (subMeshes : list SubMesh) (device : Device)
  : ending (bool * Device) :=
  match subMeshes with
  | [] => Finished (true, device)
  | subMesh :: subMeshes' =>
      let '(created, device) := CreateBuffer device (length (indices subMesh)) in
      _ ← ASSERT created;
      if created then create_index_buffers subMeshes' device
      else Finished (false, device)
  end.

Definition createBuffersForModel (model : ModelData) (device : Device)
  : ending (bool * Device) :=
  let '(created, device) := CreateBuffer device (length (vertices model)) in
  _ ← ASSERT created;
  if created then
    device ← create_material_buffers (materials model) device;
    create_index_buffers (meshes model) device
  else Finished (false, device).

Definition loadModel (filename : string) (r : t) : ending (bool * t) :=
  if bool_decide (is_Some (m_models r !! filename)) then Finished (true, r)
  else
    '(loaded, modelData, r) ← loadModelFromFile (mkModelData [] [] []) filename r;
    if loaded : bool then
      '(created, device) ← createBuffersForModel modelData (m_device r);
      let r := mk (m_textures r) (m_models r) (m_defaultMaterial r) device in
      if created : bool then
        Finished (true, mk (m_textures r) (<[filename := modelData]> (m_models r))
                           (m_defaultMaterial r) (m_device r))
      else Finished (false, r)
    else Finished (false, r).

Definition unloadModel (filename : string) (r : t) : bool * t :=
  match m_models r !! filename with
  | None => (true, r)
  | Some _ => (true, mk (m_textures r) (delete filename (m_models r))
                        (m_defaultMaterial r) (m_device r))
  end.

(** The two loops of [cleanUp]; the release of the device objects that
    follows them does not touch the caches. *)
Definition cleanUp (r : t) : t :=
  let r := foldl (λ r modelId, (unloadModel modelId r).2) r
             (getModelKeys (m_models r)) in
  foldl (λ r textureId, (unloadTexture textureId r).2) r
    (getTextureKeys (m_textures r)).

(** The indices of the meshes of a model number its vertices. *)
Definition indexed (model : ModelData) : Prop :=
  concat (indices <$> meshes model)
  = ((λ i : nat, to_uint (Z.of_nat i)) <$> seq 0 (length (vertices model))).

End Renderer.
Arguments Vertex : clear implicits.
Arguments Material : clear implicits.
Arguments ModelData : clear implicits.
Arguments t : clear implicits.
End Renderer.

(** A triangle in two shapes, with one textured material, for the
    examples. *)
Definition example_obj : tinyobj.loaded Z :=
  tinyobj.Loaded
    (tinyobj.Attrib [0; 0; 0; 1; 0; 0; 0; 1; 0] [0; 0; 1] [5; 6])
    [tinyobj.Mesh [tinyobj.Index 0 0 0; tinyobj.Index 1 0 (-1);
                   tinyobj.Index 2 (-1) (-1)] [0];
     tinyobj.Mesh [tinyobj.Index 2 (-1) (-1); tinyobj.Index 0 (-1) (-1)] []]
    [tinyobj.Material (1, 1, 1) (2, 2, 2) (3, 3, 3) 4 "wood.png";
     tinyobj.Material (1, 1, 1) (2, 2, 2) (3, 3, 3) 4 ""].

Definition example_LoadObj (filename mtl_basedir : string)
  : option (tinyobj.loaded Z) :=
  if decide (filename = "models/tri.obj") then Some example_obj else None.

Definition example_CreateTexture (filename : string) : option nat :=
  if decide (filename = "models/wood.png") then Some 7%nat
  else if decide (filename = Renderer.DEFAULT_TEXTURE) then Some 1%nat
  else None.

Definition example_parent_path (filename : string) : string := "models".

Definition example_path_append (dir name : string) : string :=
  dir +:+ "/" +:+ name.

(** The device of the examples counts its buffers and creates each one. *)
Definition example_CreateBuffer (device : nat) (elements : nat) : bool * nat :=
  (true, S device).

Definition example_renderer : Renderer.t Z nat nat :=
  Renderer.mk {[ Renderer.DEFAULT_TEXTURE := 1%nat ]} ∅
    (Renderer.mkMaterial (0, 0, 0) (0, 0, 0) (0, 0, 0) 32 Renderer.DEFAULT_TEXTURE)
    0%nat.

Definition empty_model : Renderer.ModelData Z := Renderer.mkModelData [] [] [].

(** ** Sequences of sparse-set calls as updates of a finite map *)

Section SparseSetRuns.
Context {ElemType : Type}.



End SparseSetRuns.

(** * Proofs *)

(** ** Basic facts about the vector operations *)

Section VecFacts.
Context {A : Type}.
Implicit Types (v : list A) (x : A).

Lemma bind_Ok {B C : Type} (b : B) (k : B → outcome C) :
  (Ok b ≫= k) = k b.
Proof. reflexivity. Qed.





End VecFacts.



(** ** The trimming loop *)







(** ** The structural invariant is inductive *)

Section Invariant.
Context {ElemType : Type}.
Implicit Types (s : SparseSet.t ElemType) (m : gmap nat ElemType).
Implicit Types (e : nat) (v : ElemType).

(** The lemmas on [removeElement] are for a guard that answers as
    [isPresent] does. *)
Context (_isPresent : nat → SparseSet.t ElemType → bool).
Hypothesis guard_is_membership : ∀ e s, _isPresent e s = isPresent e s.


Lemma isPresent_true e s :
  isPresent e s = true ↔ ∃ i : Z, _sparse s !! e = Some i ∧ i ≠ -1.
Proof.
  unfold isPresent. rewrite andb_true_iff, bool_decide_eq_true. split.
  - intros [_ Hi]. destruct (_sparse s !! e) as [i|]; [|done].
    exists i. split; [done|]. apply negb_true_iff in Hi. lia.
  - intros (i & Hl & Hi). split; [by eapply lookup_lt_Some|].
    rewrite Hl. apply negb_true_iff. lia.
Qed.

Lemma isPresent_false e s :
  isPresent e s = false ↔ ∀ i : Z, _sparse s !! e = Some i → i = -1.
Proof.
  rewrite <- not_true_iff_false, isPresent_true. split.
  - intros Hn i Hl. destruct (decide (i = -1)); [done|]. destruct Hn; eauto.
  - intros Hall (i & Hl & Hi). auto.
Qed.







(** *** addElement *)




(** *** removeElement *)






(** *** Sequences of operations *)



End Invariant.

(** ** Sequences of addElement calls *)

Section AddOnly.
Context {ElemType : Type}.
Implicit Types (s : SparseSet.t ElemType) (e k : nat) (v : ElemType).
Implicit Types (l : list (nat * ElemType)).









(** *** The invariant of the adds *)






End AddOnly.



(** ** The sparse set: claims *)

(** C1. [removeElement(2)] on the set that holds the entities 1, 2, 3,
    added in that order with values [a], [b], [c], as the function is
    written: the result is decided by the guard [_isPresent], a name
    that is declared nowhere. If the guard lets the call through, the call
    returns [true] and leaves [_dense = [a; c]], [_denseEntities = [1; 3]]
    and [_sparse = [-1; 0; -1; 1]], with the trailing [-1] trimmed; 2 is
    then absent, [getElement 1] is [a] and [getElement 3] is [c]. If it
    does not, the call returns [false] and the set is as before, with 2
    still present. *)
Theorem removeElement_three_entities {ElemType : Type}
    (_isPresent : nat → SparseSet.t ElemType → bool) (a b c : ElemType) :
  ∃ s0 s : SparseSet.t ElemType,
    three_entities a b c = Ok s0 ∧
    isPresent 2 s0 = true ∧
    removeElement _isPresent 2%nat s0
      = (if _isPresent 2%nat s0 then Ok (true, s) else Ok (false, s0)) ∧
    _dense s = [a; c] ∧ _denseEntities s = [1; 3]%nat ∧
    _sparse s = [-1; 0; -1; 1] ∧
    isPresent 2 s = false ∧
    getElement 1 s = Ok a ∧ getElement 3 s = Ok c.
Proof.
  exists (mk [-1; 0; 1; 2] [1; 2; 3]%nat [a; b; c]),
         (mk [-1; 0; -1; 1] [1; 3]%nat [a; c]).
  split_and!; try reflexivity.
  unfold removeElement.
  destruct (_isPresent 2%nat (mk [-1; 0; 1; 2] [1; 2; 3]%nat [a; b; c]));
    reflexivity.
Qed.










(** C7. [removeElement] of an absent identifier, as the function is
    written: whether the call is the no-op that returns [false] is
    decided by the guard [_isPresent], a name that is declared nowhere.
    If the guard stops the call, it returns [false] and the set is as it
    was; if the guard lets it through, the call reads [_sparse] or writes
    [_dense] outside the vector. *)
Theorem removeElement_absent_guard {ElemType : Type}
    (_isPresent : nat → SparseSet.t ElemType → bool)
    (id : nat) (s : SparseSet.t ElemType) :
  isPresent id s = false →
  removeElement _isPresent id s
    = if _isPresent id s then Undefined else Ok (false, s).
Proof.
  rewrite isPresent_false. intros Habs. unfold removeElement.
  destruct (_isPresent id s); [|done]. cbn [negb].
  unfold Vec.get at 1. destruct (_sparse s !! id) as [i|] eqn:Hl; [|done].
  rewrite (Habs i eq_refl), bind_Ok. cbv zeta.
  destruct (Vec.get_int (_dense s) _) as [lastElem| |] eqn:Hlast; [done | done |].
  unfold Vec.get_int, Vec.get in Hlast. by repeat case_match.
Qed.

Lemma removeElement_absent_guard_witness :
  isPresent 2 (mk [-1; 0; -1; 1] [1%nat; 3%nat] [10; 30]) = false ∧
  removeElement (λ _ _, true) 2%nat (mk [-1; 0; -1; 1] [1%nat; 3%nat] [10; 30])
    = Undefined ∧
  removeElement (λ _ _, false) 2%nat (mk [-1; 0; -1; 1] [1%nat; 3%nat] [10; 30])
    = Ok (false, mk [-1; 0; -1; 1] [1%nat; 3%nat] [10; 30]).
Proof.
  split; [reflexivity|]. split.
  - apply (removeElement_absent_guard (λ _ _, true) 2%nat
             (mk [-1; 0; -1; 1] [1%nat; 3%nat] [10; 30])).
    reflexivity.
  - apply (removeElement_absent_guard (λ _ _, false) 2%nat
             (mk [-1; 0; -1; 1] [1%nat; 3%nat] [10; 30])).
    reflexivity.
Defined.

(** ** The systems manager *)

Module SchedulerProofs.
Import SystemsManager.

Section Scheduler.
Context {F : Type} (onUpdate : nat → F → list request).
Context (LessPriority : ISystem → ISystem → bool).
Implicit Types (m : t F) (x y : ISystem) (dt : F) (system : nat).




(** *** What the calls served during [update] leave alone *)













Lemma invoked_app m m' (l : list (hook F)) :
  hooks m' = hooks m ++ l → invoked m m' = l.
Proof. unfold invoked. intros ->. apply drop_app_length. Qed.


Lemma stops_frame (l : list ISystem) m :
  let m' := foldl (λ m (y : ISystem), invoke (OnStop (address y)) m) m l in
  _systems m' = _systems m ∧ _removedSystems m' = _removedSystems m ∧
  _addedSystems m' = _addedSystems m ∧
  hooks m' = hooks m ++ ((λ y : ISystem, OnStop (address y)) <$> l).
Proof.
  revert m. induction l as [|y l IH]; intros m; simpl.
  - by rewrite app_nil_r.
  - destruct (IH (invoke (OnStop (address y)) m)) as (-> & -> & -> & ->).
    simpl. by rewrite <- app_assoc.
Qed.


(** *** The active set is sorted *)

Section Sorted.
Context (R : relation ISystem) `{!Transitive R}.
Hypothesis comparator_implies : ∀ lhs rhs, LessPriority lhs rhs = true → R lhs rhs.




End Sorted.

(** *** Three systems, and two *)





(** C8. [stop] invokes [onStop] on every active system, once for each
    element of the active set and in its order, and on no other system;
    the active set and both queues are left as they are, so that no
    system goes through the remove queue. *)
Theorem stop_invokes_onStop_once (m : t F) :
  let m' := stop m in
  invoked m m' = ((λ y : ISystem, OnStop (address y)) <$> _systems m) ∧
  (∀ system, OnStop system ∈ invoked m m' ↔ system ∈ active m) ∧
  (NoDup (active m) → NoDup (invoked m m')) ∧
  _systems m' = _systems m ∧
  _removedSystems m' = _removedSystems m ∧
  _addedSystems m' = _addedSystems m.
Proof.
  intros m'.
  destruct (stops_frame (_systems m) m) as (Hs & Hr & Ha & Hh).
  fold (stop m) in Hs, Hr, Ha, Hh. fold m' in Hs, Hr, Ha, Hh.
  assert (Hinv : invoked m m' = (OnStop <$> active m)).
  { rewrite (invoked_app m m' _ Hh). unfold active.
    by rewrite <- list_fmap_compose. }
  split_and!; try done.
  - by rewrite (invoked_app m m' _ Hh).
  - intros system. rewrite Hinv. split.
    + by intros (s' & [= ->] & Hs')%list_elem_of_fmap.
    + intros Hin. apply list_elem_of_fmap. by exists system.
  - intros Hnd. rewrite Hinv. apply NoDup_fmap; [|done]. by intros ?? [= ->].
Qed.

End Scheduler.





Lemma stop_invokes_onStop_once_witness :
  invoked two_systems (stop two_systems) = [OnStop 1%nat; OnStop 2%nat] ∧
  NoDup (invoked two_systems (stop two_systems)) ∧
  _removedSystems (stop two_systems) = [].
Proof.
  destruct (stop_invokes_onStop_once two_systems) as (Hh & _ & Hnd & _ & Hr & _).
  split_and!; [exact Hh | | exact Hr].
  apply Hnd. apply (bool_decide_unpack _). by vm_compute.
Defined.

End SchedulerProofs.

(** ** GameController::run *)

Module GameLoopProofs.
Import GameController.

Section GameLoop.
Context {F M : Type} `{!SystemsManagerOps F M}.
Context (float_zero : F) (duration_count : Z → F).
Implicit Types (g : t F M) (fr : frame) (dt : F).

(** The [dt] of the iterations over [frames], the first one being
    given. *)
Lemma take_deltas dt fr (frames : list frame) :
  take (length (fr :: frames))
    (dt :: ((λ fr, duration_count (update_ticks fr)) <$> fr :: frames))
  = dt :: take (length frames)
            (duration_count (update_ticks fr)
               :: ((λ fr, duration_count (update_ticks fr)) <$> frames)).
Proof. reflexivity. Qed.

Lemma run_loop_exits (before : list frame) (last : frame) (rest : list frame)
    dt g :
  Forall (λ fr, needToExit fr = false) before →
  needToExit last = true →
  let dts := take (length before)
               (dt :: ((λ fr, duration_count (update_ticks fr)) <$> before)) in
  ∃ g' : t F M,
    run_loop duration_count (before ++ last :: rest) dt g = Ok g' ∧
    calls g' = calls g ++ concat (tick <$> dts) ++ [WindowUpdate true] ∧
    m_systemsManager g'
      = foldl (λ m d, sm_update d
                        (sm_processRemovedSystems (sm_processAddedSystems m)))
          (m_systemsManager g) dts.
Proof.
  intros Hbefore Hlast. revert dt g.
  induction before as [|fr before IH]; intros dt g dts.
  - eexists. simpl. rewrite Hlast. split_and!; reflexivity.
  - apply Forall_cons in Hbefore as [Hfr Hbefore].
    subst dts. rewrite take_deltas.
    cbn [app run_loop]. rewrite Hfr. cbn [now called clock calls m_systemsManager].
    match goal with
    | |- context [duration_count ?d] =>
        replace d with (update_ticks fr) by lia
    end.
    edestruct (IH Hbefore) as (g' & Hrun & Hcalls & Hm).
    exists g'. split_and!; [exact Hrun | |].
    + rewrite Hcalls. cbn [calls fmap list_fmap concat tick].
      rewrite <- !app_assoc. reflexivity.
    + rewrite Hm. reflexivity.
Qed.

(** C9. In a run in which the window asks to exit at its (n+1)-th
    update, the calls made are n complete iterations, each of them
    [m_window.update()], [processAddedSystems()],
    [processRemovedSystems()], [update(dt)] in this order with the clock
    read before and after [update], then the window update that ends
    the loop, and then [stop()], after which [run] returns. *)
Theorem run_call_order (before : list frame) (last : frame)
    (rest : list frame) g :
  Forall (λ fr, needToExit fr = false) before →
  needToExit last = true →
  ∃ (g' : t F M) (dts : list F),
    run float_zero duration_count (before ++ last :: rest) g = Ok g' ∧
    length dts = length before ∧
    calls g' = calls g ++ concat (tick <$> dts) ++ [WindowUpdate true; Stop] ∧
    m_systemsManager g'
      = sm_stop
          (foldl (λ m d, sm_update d
                           (sm_processRemovedSystems (sm_processAddedSystems m)))
             (m_systemsManager g) dts).
Proof.
  intros Hbefore Hlast.
  destruct (run_loop_exits before last rest float_zero g Hbefore Hlast)
    as (g1 & Hrun & Hcalls & Hm).
  exists (called Stop 0 sm_stop g1),
         (take (length before)
            (float_zero :: ((λ fr, duration_count (update_ticks fr)) <$> before))).
  unfold run. rewrite Hrun, bind_Ok.
  split_and!; [reflexivity | | |].
  - rewrite length_take, length_cons, length_fmap. lia.
  - cbn [calls called]. rewrite Hcalls, <- !app_assoc. reflexivity.
  - cbn [m_systemsManager called]. by rewrite Hm.
Qed.

(** C10. The first [update] gets [dt = 0]; every later one gets the
    [float] count of the clock ticks between the two clock readings
    around the previous [update], which are the ticks of that [update]
    call and not those of the window, of [processAddedSystems] or of
    [processRemovedSystems]. These are the arguments of the [update]
    calls that [run] makes, and the systems manager is in the state that
    its [update] leaves with these arguments, one after the other, each
    after [processAddedSystems] and [processRemovedSystems], and [stop]
    at the end. *)
Theorem run_delta_time (before : list frame) (last : frame)
    (rest : list frame) g :
  Forall (λ fr, needToExit fr = false) before →
  needToExit last = true →
  ∃ (g' : t F M) (made : list (call F)),
    run float_zero duration_count (before ++ last :: rest) g = Ok g' ∧
    calls g' = calls g ++ made ∧
    update_arguments made
      = take (length before)
          (float_zero :: ((λ fr, duration_count (update_ticks fr)) <$> before)) ∧
    m_systemsManager g'
      = sm_stop
          (foldl (λ m dt, sm_update dt
                            (sm_processRemovedSystems (sm_processAddedSystems m)))
             (m_systemsManager g)
             (take (length before)
                (float_zero
                   :: ((λ fr, duration_count (update_ticks fr)) <$> before)))).
Proof.
  intros Hbefore Hlast.
  destruct (run_loop_exits before last rest float_zero g Hbefore Hlast)
    as (g1 & Hrun & Hcalls & Hm).
  eexists _, _. unfold run. rewrite Hrun, bind_Ok.
  split_and!; [reflexivity | | |].
  - cbn [calls called]. rewrite Hcalls, <- !app_assoc. reflexivity.
  - unfold update_arguments. rewrite omap_app, app_nil_r.
    generalize (take (length before)
                  (float_zero :: ((λ fr, duration_count (update_ticks fr)) <$> before))).
    intros dts. induction dts as [|d dts IH]; [done|].
    cbn [fmap list_fmap concat]. rewrite omap_app, IH. done.
  - cbn [m_systemsManager called]. by rewrite Hm.
Qed.

End GameLoop.

Lemma run_call_order_witness :
  ∃ (g' : t Z (list Z)) (dts : list Z),
    run 0 (λ ticks, ticks)
      ([Frame false 3 1 1 16; Frame false 2 1 1 17] ++ Frame true 2 0 0 0 :: [])
      (mk [] 100 []) = Ok g' ∧
    length dts = 2%nat ∧
    calls g' = [] ++ concat (tick <$> dts) ++ [WindowUpdate true; Stop].
Proof.
  destruct (run_call_order 0 (λ ticks, ticks)
              [Frame false 3 1 1 16; Frame false 2 1 1 17] (Frame true 2 0 0 0) []
              (mk ([] : list Z) 100 []))
    as (g' & dts & Hrun & Hlen & Hcalls & _).
  - repeat constructor.
  - reflexivity.
  - exists g', dts. split_and!; [exact Hrun | exact Hlen | exact Hcalls].
Defined.

Lemma run_delta_time_witness :
  ∃ (g' : t Z (list Z)) (made : list (call Z)),
    run 0 (λ ticks, ticks)
      ([Frame false 3 1 1 16; Frame false 2 1 1 17; Frame false 9 4 4 18]
         ++ Frame true 2 0 0 0 :: [])
      (mk [] 100 []) = Ok g' ∧
    calls g' = [] ++ made ∧
    update_arguments made = [0; 16; 17] ∧
    m_systemsManager g' = [0; 16; 17].
Proof.
  destruct (run_delta_time 0 (λ ticks, ticks)
              [Frame false 3 1 1 16; Frame false 2 1 1 17; Frame false 9 4 4 18]
              (Frame true 2 0 0 0) [] (mk ([] : list Z) 100 []))
    as (g' & made & Hrun & Hcalls & Hargs & Hm).
  - repeat constructor.
  - reflexivity.
  - exists g', made.
    split_and!; [exact Hrun | exact Hcalls | exact Hargs | exact Hm].
Defined.

End GameLoopProofs.

(** * Further properties of the code *)

(** ** The sparse set *)

Section SparseSetMore.
Context {ElemType : Type}.
Implicit Types (s : SparseSet.t ElemType) (m : gmap nat ElemType).
Implicit Types (e k : nat) (v : ElemType) (o : @op ElemType).

(** What follows is for a guard of [removeElement] that answers as
    [isPresent] does. *)
Context (_isPresent : nat → SparseSet.t ElemType → bool).
Hypothesis guard_is_membership : ∀ e s, _isPresent e s = isPresent e s.








(** X2. [getElement] does not check its argument: for an id that is not
    present the access is outside [_sparse] or outside [_dense], in every
    state of the set. *)
Theorem getElement_absent_undefined (k : nat) s :
  isPresent k s = false → getElement k s = Undefined.
Proof.
  rewrite isPresent_false. intros Habs. unfold getElement, Vec.get.
  destruct (_sparse s !! k) as [i|] eqn:Hl; [|done].
  rewrite (Habs i eq_refl). done.
Qed.






End SparseSetMore.



Lemma getElement_absent_undefined_witness :
  isPresent 2 (mk [-1; 0; -1; 1] [1%nat; 3%nat] [10; 30]) = false ∧
  getElement 2 (mk [-1; 0; -1; 1] [1%nat; 3%nat] [10; 30]) = Undefined.
Proof.
  split; [reflexivity|].
  apply (getElement_absent_undefined 2 (mk [-1; 0; -1; 1] [1%nat; 3%nat] [10; 30])).
  reflexivity.
Defined.





(** ** Utils::splitString *)

Module SplitProofs.
Import BasicUtils.

Section Split.
Context (delimiter : ascii).
Implicit Types (str part : list ascii) (parts : list (list ascii)).

Lemma join_cons part parts :
  parts ≠ [] → join delimiter (part :: parts) = part ++ delimiter :: join delimiter parts.
Proof. by destruct parts. Qed.

Lemma occurrences_none str :
  delimiter ∉ str → occurrences delimiter str = 0%nat.
Proof.
  unfold occurrences. induction str as [|c str IH]; [done|].
  intros [Hc Hstr]%not_elem_of_cons. rewrite filter_cons.
  rewrite decide_False by done. by apply IH.
Qed.

Lemma occurrences_middle str1 str2 :
  occurrences delimiter (str1 ++ delimiter :: str2)
  = S (occurrences delimiter str1 + occurrences delimiter str2).
Proof.
  unfold occurrences. rewrite filter_app, filter_cons, decide_True by done.
  rewrite length_app. simpl. lia.
Qed.

(** What [find] says about the rest of the string. *)
Lemma find_Some str (start end_ : nat) :
  find str delimiter start = Some end_ →
  ∃ i : nat, end_ = (start + i)%nat ∧
    drop start str
      = take i (drop start str) ++ (delimiter :: drop (S end_) str) ∧
    (delimiter ∉ take i (drop start str)) ∧
    (end_ < length str)%nat.
Proof.
  unfold find. intros Hfind. apply fmap_Some in Hfind as ([i c] & Hfind & ->).
  apply list_find_Some in Hfind as (Hi & -> & Hbefore). simpl.
  exists i. split_and!; [done | | |].
  - rewrite <- (take_drop_middle _ _ _ Hi) at 1. rewrite drop_drop.
    do 3 f_equal. lia.
  - intros [j Hj]%list_elem_of_lookup. apply lookup_take_Some in Hj as [Hj Hlt].
    by apply (Hbefore j delimiter).
  - apply lookup_lt_Some in Hi. rewrite length_drop in Hi. lia.
Qed.

Lemma find_None str (start : nat) :
  find str delimiter start = None → delimiter ∉ drop start str.
Proof.
  unfold find. intros Hfind. apply fmap_None in Hfind.
  apply list_find_None in Hfind. rewrite Forall_forall in Hfind.
  intros Hin. by apply (Hfind delimiter).
Qed.

Lemma split_loop_spec (fuel : nat) str parts0 (start : nat) :
  (start ≤ length str)%nat → (length str - start < fuel)%nat →
  ∃ parts,
    split_loop fuel str delimiter parts0 start = Returned (parts0 ++ parts) ∧
    parts ≠ [] ∧
    join delimiter parts = drop start str ∧
    Forall (λ part, delimiter ∉ part) parts ∧
    length parts = S (occurrences delimiter (drop start str)).
Proof.
  revert parts0 start. induction fuel as [|fuel IH]; intros parts0 start Hle Hfuel; [lia|].
  cbn [split_loop]. unfold substr.
  destruct (find str delimiter start) as [end_|] eqn:Hfind;
    rewrite decide_False by lia.
  - destruct (find_Some _ _ _ Hfind) as (i & -> & Hsplit & Hfree & Hlt).
    replace (start + i - start)%nat with i by lia.
    destruct (IH (parts0 ++ [take i (drop start str)]) (start + i + 1)%nat)
      as (parts & Hloop & Hne & Hjoin & Hall & Hlen); [lia | lia |].
    replace (start + i + 1)%nat with (S (start + i)) in * by lia.
    exists (take i (drop start str) :: parts). split_and!.
    + rewrite Hloop, <- app_assoc. done.
    + done.
    + rewrite join_cons by done. rewrite Hjoin. by rewrite <- Hsplit.
    + by constructor.
    + simpl. rewrite Hlen. rewrite Hsplit at 1.
      rewrite occurrences_middle.
      rewrite (occurrences_none (take i (drop start str))) by done. done.
  - apply find_None in Hfind.
    exists [drop start str]. split_and!; try done.
    + by constructor.
    + simpl. by rewrite occurrences_none.
Qed.

(** X7. [splitString] returns for every string, without an exception,
    and the parts it returns, put together with the delimiter between
    them, are the string again. *)
Theorem split_then_join str :
  ∃ parts, splitString str delimiter = Returned parts ∧
           join delimiter parts = str.
Proof.
  destruct (split_loop_spec (S (length str)) str [] 0)
    as (parts & Hloop & _ & Hjoin & _); [lia | lia |].
  exists parts. split; [exact Hloop | exact Hjoin].
Qed.

(** X8. No part contains the delimiter, and there is one part more than
    the string has delimiters: at least one part, [[str]] alone for a
    string without the delimiter, and an empty part for each delimiter at
    an end or next to another one. *)
Theorem split_parts str :
  ∃ parts, splitString str delimiter = Returned parts ∧
           Forall (λ part, delimiter ∉ part) parts ∧
           length parts = S (occurrences delimiter str) ∧
           (delimiter ∉ str → parts = [str]).
Proof.
  destruct (split_loop_spec (S (length str)) str [] 0)
    as (parts & Hloop & Hne & Hjoin & Hall & Hlen); [lia | lia |].
  exists parts. split_and!; [exact Hloop | done | done |].
  intros Hfree. rewrite drop_0, (occurrences_none _ Hfree) in Hlen.
  destruct parts as [|part [|? ?]]; simplify_eq/=. done.
Qed.

Lemma join_free_inj parts1 parts2 :
  parts1 ≠ [] → parts2 ≠ [] →
  Forall (λ part, delimiter ∉ part) parts1 →
  Forall (λ part, delimiter ∉ part) parts2 →
  join delimiter parts1 = join delimiter parts2 → parts1 = parts2.
Proof.
  assert (Hhead : ∀ p q r1 r2,
            delimiter ∉ p → delimiter ∉ q →
            p ++ delimiter :: r1 = q ++ delimiter :: r2 → p = q ∧ r1 = r2).
  { induction p as [|c p IHp]; intros [|c' q] r1 r2 Hp Hq Heq; simplify_eq/=.
    - done.
    - exfalso. apply Hq. by left.
    - exfalso. apply Hp. by left.
    - apply not_elem_of_cons in Hp as [_ Hp]. apply not_elem_of_cons in Hq as [_ Hq].
      destruct (IHp q r1 r2 Hp Hq) as [-> ->]; done. }
  revert parts2. induction parts1 as [|p parts1 IH]; intros parts2 Hne1 Hne2 H1 H2 Heq; [done|].
  destruct parts2 as [|q parts2]; [done|].
  apply Forall_cons in H1 as [Hp H1]. apply Forall_cons in H2 as [Hq H2].
  destruct parts1 as [|p' parts1], parts2 as [|q' parts2].
  - simpl in Heq. by subst.
  - exfalso. rewrite (join_cons q) in Heq by done. simpl in Heq. subst p.
    apply Hp, elem_of_app. right. by left.
  - exfalso. rewrite (join_cons p) in Heq by done. simpl in Heq. subst q.
    apply Hq, elem_of_app. right. by left.
  - rewrite (join_cons p (p' :: parts1)), (join_cons q (q' :: parts2)) in Heq
      by done.
    apply Hhead in Heq as [-> Heq]; [|done|done].
    f_equal. by apply IH.
Qed.

(** X9. Splitting is the inverse of joining: for parts, at least one,
    that do not contain the delimiter, [splitString] of their join returns
    exactly these parts. *)
Theorem join_then_split parts :
  parts ≠ [] →
  Forall (λ part, delimiter ∉ part) parts →
  splitString (join delimiter parts) delimiter = Returned parts.
Proof.
  intros Hne Hall.
  destruct (split_loop_spec (S (length (join delimiter parts)))
              (join delimiter parts) [] 0)
    as (parts' & Hloop & Hne' & Hjoin & Hall' & _); [lia | lia |].
  rewrite drop_0 in Hjoin.
  unfold splitString. rewrite Hloop. f_equal. simpl.
  by apply join_free_inj.
Qed.

End Split.

Lemma join_then_split_witness :
  [["a"; "b"]; []; ["c"]]%char ≠ [] ∧
  Forall (λ part, ","%char ∉ part) [["a"; "b"]; []; ["c"]]%char ∧
  splitString ["a"; "b"; ","; ","; "c"]%char ","%char
    = Returned [["a"; "b"]; []; ["c"]]%char.
Proof.
  assert (Hne : [["a"; "b"]; []; ["c"]]%char ≠ []) by discriminate.
  assert (Hall : Forall (λ part, ","%char ∉ part) [["a"; "b"]; []; ["c"]]%char).
  { repeat constructor; apply (bool_decide_unpack _); by vm_compute. }
  split_and!; [exact Hne | exact Hall |].
  exact (join_then_split ","%char [["a"; "b"]; []; ["c"]]%char Hne Hall).
Defined.

End SplitProofs.

(** ** DirectXRenderer: the texture cache and loadModelFromFile *)

Module RendererProofs.
Import Renderer.

Lemma ending_bind_Finished {A B : Type} (c : ending A) (k : A → ending B) (b : B) :
  c ≫= k = Finished b → ∃ a, c = Finished a ∧ k a = Finished b.
Proof. destruct c as [a| |]; simpl; [eauto | done | done]. Qed.

Section Renderer.
Context {F Tex Device : Type}.
Context (float_zero : F) (one_minus : F → F).
Context (assert_aborts : bool).
Context (LoadObj : string → string → option (tinyobj.loaded F)).
Context (CreateWICTextureFromFile : string → option Tex).
Context (parent_path : string → string) (path_append : string → string → string).
Context (CreateBuffer : Device → nat → bool * Device).
Implicit Types (r : t F Tex Device) (model : ModelData F) (filename : string).

#[local] Abbreviation loadTexture := (loadTexture assert_aborts CreateWICTextureFromFile).
#[local] Abbreviation getTexture := (getTexture assert_aborts).
#[local] Abbreviation load_materials :=
  (load_materials assert_aborts CreateWICTextureFromFile path_append).
#[local] Abbreviation load_indices := (load_indices float_zero one_minus).
#[local] Abbreviation load_shapes := (load_shapes float_zero one_minus).
#[local] Abbreviation loadModelFromFile :=
  (loadModelFromFile float_zero one_minus assert_aborts LoadObj
     CreateWICTextureFromFile parent_path path_append).

Lemma ASSERT_Finished (condition : bool) (u : unit) :
  ASSERT assert_aborts condition = Finished u →
  condition = true ∨ assert_aborts = false.
Proof. unfold ASSERT. destruct condition, assert_aborts; auto; discriminate. Qed.

Lemma ASSERT_continues (condition : bool) :
  assert_aborts = false → ASSERT assert_aborts condition = Finished tt.
Proof. unfold ASSERT. intros ->. by destruct condition. Qed.

Lemma loadTexture_Finished filename r (loaded : bool) r' :
  loadTexture filename r = Finished (loaded, r') →
  m_textures r ⊆ m_textures r' ∧
  m_defaultMaterial r' = m_defaultMaterial r ∧
  m_models r' = m_models r ∧ m_device r' = m_device r ∧
  if loaded then is_Some (m_textures r' !! filename)
  else r' = r ∧ m_textures r !! filename = None
       ∧ CreateWICTextureFromFile filename = None.
Proof.
  unfold Renderer.loadTexture. case_bool_decide as Hhit.
  - intros [= <- <-]. done.
  - intros Hload. apply ending_bind_Finished in Hload as (u & _ & Hload).
    apply eq_None_not_Some in Hhit.
    destruct (CreateWICTextureFromFile filename) as [texture|].
    + injection Hload as <- <-. simpl. split_and!; [|done|done|done|].
      * by apply insert_subseteq.
      * rewrite lookup_insert_eq. eauto.
    + by injection Hload as <- <-.
Qed.

Lemma load_materials_Finished (matDir : string)
    (mats : list (tinyobj.material_t F)) model r model' r' :
  load_materials matDir mats model r = Finished (model', r') →
  vertices model' = vertices model ∧ meshes model' = meshes model ∧
  m_textures r ⊆ m_textures r' ∧
  m_defaultMaterial r' = m_defaultMaterial r ∧
  m_models r' = m_models r ∧ m_device r' = m_device r ∧
  ∃ new : list (Material F),
    materials model' = materials model ++ new ∧
    length new = length mats ∧
    Forall (λ mat, is_Some (m_textures r' !! diffuseTextureId mat) ∨
                   diffuseTextureId mat = diffuseTextureId (m_defaultMaterial r))
      new.
Proof.
  revert model r. induction mats as [|mat mats IH]; intros model r Hload.
  - injection Hload as <- <-. split_and!; try done.
    exists []. by rewrite app_nil_r.
  - cbn [Renderer.load_materials] in Hload.
    apply ending_bind_Finished in Hload as ([textureId r1] & Hid & Hload).
    assert (Hstep : m_textures r ⊆ m_textures r1 ∧
                    m_defaultMaterial r1 = m_defaultMaterial r ∧
                    m_models r1 = m_models r ∧ m_device r1 = m_device r ∧
                    (is_Some (m_textures r1 !! textureId) ∨
                     textureId = diffuseTextureId (m_defaultMaterial r))).
    { case_bool_decide.
      - apply ending_bind_Finished in Hid as ([loaded r2] & Hld & Hid).
        injection Hid as <- <-.
        apply loadTexture_Finished in Hld as (Hsub & Hdef & Hmod & Hdev & Hres).
        destruct loaded.
        + split_and!; [done | done | done | done | by left].
        + destruct Hres as (-> & _). split_and!; [done | done | done | done | by right].
      - injection Hid as <- <-. split_and!; [done | done | done | done | by right]. }
    destruct Hstep as (Hsub1 & Hdef1 & Hmod1 & Hdev1 & Htex).
    apply IH in Hload
      as (Hv & Hm & Hsub & Hdef & Hmod & Hdev & new & Hmats & Hlen & Hall).
    simpl in Hv, Hm, Hmats.
    split_and!; [done | done | by etrans | congruence | congruence | congruence |].
    eexists (_ :: new). split_and!.
    + rewrite Hmats, <- app_assoc. done.
    + simpl. by rewrite Hlen.
    + constructor.
      * simpl. destruct Htex as [[tex Htex]|Htex]; [left|by right].
        exists tex. by eapply lookup_weaken.
      * rewrite Hdef1 in Hall. done.
Qed.

Lemma load_indices_Finished (attrib : tinyobj.attrib_t F)
    (idx : list tinyobj.index_t) (verts : list (Vertex F)) (mesh_indices : list Z)
    verts' mesh_indices' :
  load_indices attrib idx verts mesh_indices = Finished (verts', mesh_indices') →
  ∃ new : list (Vertex F),
    verts' = verts ++ new ∧ length new = length idx ∧
    mesh_indices'
      = mesh_indices ++ ((λ i : nat, to_uint (Z.of_nat i)) <$> seq (length verts) (length idx)).
Proof.
  revert verts mesh_indices. induction idx as [|index idx IH];
    intros verts mesh_indices Hload.
  - injection Hload as <- <-. exists []. by rewrite !app_nil_r.
  - cbn [Renderer.load_indices] in Hload.
    apply ending_bind_Finished in Hload as (vertex & _ & Hload).
    apply IH in Hload as (new & -> & Hlen & ->).
    exists (vertex :: new). split_and!.
    + by rewrite <- app_assoc.
    + simpl. by rewrite Hlen.
    + rewrite <- app_assoc, length_app. simpl.
      replace (length verts + 1)%nat with (S (length verts)) by lia.
      replace (Z.of_nat (S (length verts)) - 1) with (Z.of_nat (length verts)) by lia.
      done.
Qed.

Lemma load_shapes_Finished (attrib : tinyobj.attrib_t F)
    (shapes : list tinyobj.mesh_t) model model' :
  load_shapes attrib shapes model = Finished model' →
  materials model' = materials model ∧
  ∃ (new_vertices : list (Vertex F)) (new_meshes : list SubMesh),
    vertices model' = vertices model ++ new_vertices ∧
    meshes model' = meshes model ++ new_meshes ∧
    Forall2 (λ shape mesh,
               length (indices mesh) = length (tinyobj.indices shape) ∧
               materialId mesh = shape_material shape)
      shapes new_meshes ∧
    concat (indices <$> new_meshes)
      = ((λ i : nat, to_uint (Z.of_nat i))
           <$> seq (length (vertices model)) (length new_vertices)).
Proof.
  revert model. induction shapes as [|shape shapes IH]; intros model Hload.
  - injection Hload as <-. split; [done|]. exists [], [].
    rewrite !app_nil_r. split_and!; done.
  - cbn [Renderer.load_shapes] in Hload.
    apply ending_bind_Finished in Hload as ([verts mesh_indices] & Hidx & Hload).
    apply load_indices_Finished in Hidx as (new & -> & Hlen & ->).
    apply IH in Hload as (Hmat & newv & newm & Hv & Hm & Hall & Hcat).
    simpl in Hmat, Hv, Hm, Hcat. split; [done|].
    eexists (new ++ newv), (_ :: newm). split_and!.
    + by rewrite Hv, <- app_assoc.
    + by rewrite Hm, <- app_assoc.
    + constructor; [|done]. simpl. split; [|done].
      by rewrite length_fmap, length_seq.
    + rewrite fmap_cons. simpl. rewrite Hcat.
      rewrite (length_app new newv), Hlen, seq_app, fmap_app.
      do 3 f_equal. rewrite length_app. lia.
Qed.

Lemma getTexture_cached (textureId : string) r (texture : Tex) :
  m_textures r !! textureId = Some texture →
  getTexture textureId r = Finished (Some texture).
Proof.
  intros Hhit. unfold Renderer.getTexture. rewrite Hhit.
  rewrite bool_decide_eq_true_2 by eauto. done.
Qed.

Lemma loadModelFromFile_Finished model filename r model' r' :
  loadModelFromFile model filename r = Finished (true, model', r') →
  ∃ (obj : tinyobj.loaded F) model1,
    LoadObj filename (parent_path filename) = Some obj ∧
    load_materials (parent_path filename) (tinyobj.materials obj) model r
      = Finished (model1, r') ∧
    load_shapes (tinyobj.attrib obj) (tinyobj.shapes obj) model1 = Finished model'.
Proof.
  unfold Renderer.loadModelFromFile. intros Hload.
  apply ending_bind_Finished in Hload as (u & _ & Hload).
  destruct (LoadObj filename (parent_path filename)) as [obj|]; [|done].
  apply ending_bind_Finished in Hload as ([model1 r1] & Hmats & Hload).
  apply ending_bind_Finished in Hload as (model2 & Hshapes & Hload).
  injection Hload as <- <-. eauto.
Qed.

(** X11. A texture that was not in the cache and that [loadTexture]
    loads is in the cache afterwards under its file name; loading it again
    does not read the file and changes nothing, and [unloadTexture] gives
    back the renderer as it was before the load. *)
Theorem texture_load_unload filename r r' :
  m_textures r !! filename = None →
  loadTexture filename r = Finished (true, r') →
  (∃ texture : Tex,
     CreateWICTextureFromFile filename = Some texture ∧
     m_textures r' !! filename = Some texture ∧
     getTexture filename r' = Finished (Some texture)) ∧
  loadTexture filename r' = Finished (true, r') ∧
  unloadTexture filename r' = (true, r).
Proof.
  intros Hmiss Hload. unfold Renderer.loadTexture in Hload.
  rewrite bool_decide_eq_false_2 in Hload by (rewrite Hmiss; by intros [? ?]).
  apply ending_bind_Finished in Hload as (u & _ & Hload).
  destruct (CreateWICTextureFromFile filename) as [texture|] eqn:Hfile; [|done].
  injection Hload as <-.
  assert (Hhit : m_textures (mk (<[filename := texture]> (m_textures r))
                              (m_models r) (m_defaultMaterial r) (m_device r))
                  !! filename = Some texture)
    by apply lookup_insert_eq.
  split_and!.
  - exists texture. split_and!; [done | done | by apply getTexture_cached].
  - unfold Renderer.loadTexture. rewrite bool_decide_eq_true_2 by eauto. done.
  - unfold unloadTexture. rewrite Hhit. simpl.
    rewrite delete_insert_eq, delete_id by done. by destruct r.
Qed.

(** X12. When [loadModelFromFile] returns [true] it has added one
    material for each material of the file, and the texture id of each of
    them is in the texture cache or is the id of the default material;
    the cache has only grown. If the default material's texture is in the
    cache, [getTexture] finds the texture of every added material under
    its own id. *)
Theorem loaded_materials_have_textures model filename r model' r' :
  loadModelFromFile model filename r = Finished (true, model', r') →
  m_textures r ⊆ m_textures r' ∧
  ∃ (obj : tinyobj.loaded F) (new : list (Material F)),
    LoadObj filename (parent_path filename) = Some obj ∧
    materials model' = materials model ++ new ∧
    length new = length (tinyobj.materials obj) ∧
    Forall (λ mat, is_Some (m_textures r' !! diffuseTextureId mat) ∨
                   diffuseTextureId mat = diffuseTextureId (m_defaultMaterial r))
      new ∧
    (is_Some (m_textures r !! diffuseTextureId (m_defaultMaterial r)) →
     Forall (λ mat, ∃ texture : Tex,
                 m_textures r' !! diffuseTextureId mat = Some texture ∧
                 getTexture (diffuseTextureId mat) r' = Finished (Some texture))
       new).
Proof.
  intros (obj & model1 & Hobj & Hmats & Hshapes)%loadModelFromFile_Finished.
  apply load_materials_Finished in Hmats
    as (_ & _ & Hsub & _ & _ & _ & new & Hnew & Hlen & Hall).
  apply load_shapes_Finished in Hshapes as (Hsame & _).
  split; [done|]. exists obj, new. split_and!; [done | congruence | done | done |].
  intros [dt Hdt]. eapply Forall_impl; [exact Hall|].
  intros mat [[texture Htex]|Hid].
  - exists texture. split; [done | by apply getTexture_cached].
  - exists dt. rewrite Hid.
    assert (Hdt' : m_textures r' !! diffuseTextureId (m_defaultMaterial r) = Some dt)
      by (by eapply lookup_weaken).
    split; [done | by apply getTexture_cached].
Qed.

(** X13. When [loadModelFromFile] returns [true] it has added one mesh
    for each shape of the file, with as many indices as the shape has and
    with the first material id of the shape, or -1 when it has none. The
    indices of the added meshes, one after the other, number the added
    vertices in order, one vertex for each index; while there are no more
    than 2^32 vertices, every index is the position of a vertex of the
    model. *)
Theorem loaded_indices_number_the_vertices model filename r model' r' :
  loadModelFromFile model filename r = Finished (true, model', r') →
  ∃ (obj : tinyobj.loaded F) (new_vertices : list (Vertex F))
    (new_meshes : list SubMesh),
    LoadObj filename (parent_path filename) = Some obj ∧
    vertices model' = vertices model ++ new_vertices ∧
    meshes model' = meshes model ++ new_meshes ∧
    Forall2 (λ shape mesh,
               length (indices mesh) = length (tinyobj.indices shape) ∧
               materialId mesh = shape_material shape)
      (tinyobj.shapes obj) new_meshes ∧
    concat (indices <$> new_meshes)
      = ((λ i : nat, to_uint (Z.of_nat i))
           <$> seq (length (vertices model)) (length new_vertices)) ∧
    (Z.of_nat (length (vertices model')) ≤ 2 ^ 32 →
     Forall (λ mesh,
               Forall (λ i, 0 ≤ i < Z.of_nat (length (vertices model')))
                 (indices mesh))
       new_meshes).
Proof.
  intros (obj & model1 & Hobj & Hmats & Hshapes)%loadModelFromFile_Finished.
  apply load_materials_Finished in Hmats as (Hv1 & Hm1 & _).
  apply load_shapes_Finished in Hshapes
    as (_ & newv & newm & Hv & Hm & Hall & Hcat).
  rewrite Hv1 in Hv, Hcat. rewrite Hm1 in Hm.
  exists obj, newv, newm. split_and!; try done.
  intros Hfit. apply Forall_forall. intros mesh Hmesh.
  apply Forall_forall. intros i Hi.
  assert (Hin : i ∈ concat (indices <$> newm)).
  { apply list_elem_of_In, in_concat. exists (indices mesh).
    split; [|by apply list_elem_of_In].
    apply list_elem_of_In, list_elem_of_fmap. by exists mesh. }
  rewrite Hcat in Hin. apply list_elem_of_fmap in Hin as (j & -> & Hj).
  apply elem_of_seq in Hj. rewrite Hv, length_app in Hfit |- *.
  unfold to_uint. rewrite Z.mod_small; lia.
Qed.

Lemma element_defined (array : list F) (factor index offset : Z) :
  0 ≤ factor * index → 0 ≤ offset →
  factor * index + offset < Z.of_nat (length array) `min` (INT_MAX + 1) →
  ∃ x, element array factor index offset = Finished x.
Proof.
  intros Hp Ho Hlt. unfold element, int_value.
  rewrite bool_decide_eq_true_2 by (unfold is_int, INT_MAX in *; lia).
  simpl. rewrite bool_decide_eq_true_2 by (unfold is_int, INT_MAX in *; lia).
  simpl. destruct (Z.ltb_spec (factor * index + offset) 0); [lia|].
  destruct (lookup_lt_is_Some_2 array (Z.to_nat (factor * index + offset)))
    as [x ->]; [lia|]. eauto.
Qed.

Lemma read_vertex_defined (attrib : tinyobj.attrib_t F) (index : tinyobj.index_t) :
  readable attrib index →
  ∃ vertex, read_vertex float_zero one_minus attrib index = Finished vertex.
Proof.
  intros (Hv0 & Hv & Hn & Ht). unfold read_vertex.
  destruct (element_defined (tinyobj.vertices attrib) 3 (tinyobj.vertex_index index) 0)
    as [x ->]; [lia..|].
  destruct (element_defined (tinyobj.vertices attrib) 3 (tinyobj.vertex_index index) 1)
    as [y ->]; [lia..|].
  destruct (element_defined (tinyobj.vertices attrib) 3 (tinyobj.vertex_index index) 2)
    as [z ->]; [lia..|].
  simpl.
  assert (Hnormal : ∃ n,
    (if 0 <=? tinyobj.normal_index index then
       nx ← element (tinyobj.normals attrib) 3 (tinyobj.normal_index index) 0;
       ny ← element (tinyobj.normals attrib) 3 (tinyobj.normal_index index) 1;
       nz ← element (tinyobj.normals attrib) 3 (tinyobj.normal_index index) 2;
       Finished (nx, ny, nz)
     else Finished (float_zero, float_zero, float_zero)) = Finished n).
  { destruct (Z.leb_spec 0 (tinyobj.normal_index index)) as [Hge|]; [|eauto].
    specialize (Hn Hge).
    destruct (element_defined (tinyobj.normals attrib) 3 (tinyobj.normal_index index) 0)
      as [nx ->]; [lia..|].
    destruct (element_defined (tinyobj.normals attrib) 3 (tinyobj.normal_index index) 1)
      as [ny ->]; [lia..|].
    destruct (element_defined (tinyobj.normals attrib) 3 (tinyobj.normal_index index) 2)
      as [nz ->]; [lia..|].
    simpl. eauto. }
  destruct Hnormal as [n ->]. simpl.
  destruct (Z.leb_spec 0 (tinyobj.texcoord_index index)) as [Hge|]; [|simpl; eauto].
  specialize (Ht Hge).
  destruct (element_defined (tinyobj.texcoords attrib) 2 (tinyobj.texcoord_index index) 0)
    as [u ->]; [lia..|].
  destruct (element_defined (tinyobj.texcoords attrib) 2 (tinyobj.texcoord_index index) 1)
    as [v ->]; [lia..|].
  simpl. eauto.
Qed.

Lemma load_indices_defined (attrib : tinyobj.attrib_t F)
    (idx : list tinyobj.index_t) (verts : list (Vertex F)) (mesh_indices : list Z) :
  Forall (readable attrib) idx →
  ∃ res, load_indices attrib idx verts mesh_indices = Finished res.
Proof.
  revert verts mesh_indices. induction idx as [|index idx IH];
    intros verts mesh_indices Hall; [simpl; eauto|].
  apply Forall_cons in Hall as [Hidx Hall]. cbn [Renderer.load_indices].
  destruct (read_vertex_defined attrib index Hidx) as [vertex ->]. simpl.
  by apply IH.
Qed.

Lemma load_shapes_defined (attrib : tinyobj.attrib_t F)
    (shapes : list tinyobj.mesh_t) model :
  Forall (λ shape, Forall (readable attrib) (tinyobj.indices shape)) shapes →
  ∃ model', load_shapes attrib shapes model = Finished model'.
Proof.
  revert model. induction shapes as [|shape shapes IH]; intros model Hall;
    [simpl; eauto|].
  apply Forall_cons in Hall as [Hshape Hall]. cbn [Renderer.load_shapes].
  destruct (load_indices_defined attrib (tinyobj.indices shape)
              (vertices model) [] Hshape) as [[verts mi] ->]. simpl.
  by apply IH.
Qed.

Lemma load_materials_defined (matDir : string)
    (mats : list (tinyobj.material_t F)) model r :
  assert_aborts = false →
  ∃ res, load_materials matDir mats model r = Finished res.
Proof.
  intros Hno. revert model r. induction mats as [|mat mats IH]; intros model r;
    [simpl; eauto|].
  cbn [Renderer.load_materials].
  case_bool_decide; [|simpl; apply IH].
  cbv zeta. unfold Renderer.loadTexture.
  case_bool_decide; [simpl; apply IH|].
  rewrite (ASSERT_continues _ Hno).
  destruct (CreateWICTextureFromFile _); simpl; apply IH.
Qed.

Lemma loadModelFromFile_finishes model filename r (obj : tinyobj.loaded F) :
  assert_aborts = false →
  LoadObj filename (parent_path filename) = Some obj →
  Forall (λ shape, Forall (readable (tinyobj.attrib obj)) (tinyobj.indices shape))
    (tinyobj.shapes obj) →
  ∃ model' r', loadModelFromFile model filename r = Finished (true, model', r').
Proof.
  intros Hno Hobj Hall. unfold Renderer.loadModelFromFile. rewrite Hobj.
  rewrite (ASSERT_continues _ Hno). simpl.
  destruct (load_materials_defined (parent_path filename) (tinyobj.materials obj)
              model r Hno) as [[model1 r1] ->]. simpl.
  destruct (load_shapes_defined (tinyobj.attrib obj) (tinyobj.shapes obj) model1 Hall)
    as [model2 ->]. simpl. eauto.
Qed.

(** X14. With an [ASSERT] that does not end the program,
    [loadModelFromFile] is defined and returns [true] for every file that
    [LoadObj] loads and whose indices are readable: the vertex index of
    each index and its normal and texture coordinate index, unless
    negative, are inside the arrays of the file. A material whose texture
    does not load is no obstacle. *)
Theorem loadModelFromFile_defined model filename r (obj : tinyobj.loaded F) :
  assert_aborts = false →
  LoadObj filename (parent_path filename) = Some obj →
  Forall (λ shape, Forall (readable (tinyobj.attrib obj)) (tinyobj.indices shape))
    (tinyobj.shapes obj) →
  ∃ model' r', loadModelFromFile model filename r = Finished (true, model', r').
Proof. apply loadModelFromFile_finishes. Qed.

End Renderer.

Lemma example_obj_readable :
  Forall (λ shape, Forall (readable (tinyobj.attrib example_obj))
                     (tinyobj.indices shape))
    (tinyobj.shapes example_obj).
Proof.
  repeat constructor; unfold readable, INT_MAX; simpl; lia.
Qed.

Lemma example_load_finishes :
  ∃ model' r',
    loadModelFromFile 0 (λ x, 1 - x) false example_LoadObj example_CreateTexture
      example_parent_path example_path_append empty_model "models/tri.obj"
      example_renderer = Finished (true, model', r').
Proof.
  apply (loadModelFromFile_finishes 0 (λ x, 1 - x) false example_LoadObj
           example_CreateTexture example_parent_path example_path_append
           empty_model "models/tri.obj" example_renderer example_obj).
  - reflexivity.
  - reflexivity.
  - apply example_obj_readable.
Defined.

Lemma texture_load_unload_witness :
  m_textures example_renderer !! "models/wood.png" = None ∧
  loadTexture false example_CreateTexture "models/wood.png" example_renderer
    = Finished (true, mk (<["models/wood.png" := 7%nat]> (m_textures example_renderer))
                         (m_models example_renderer)
                         (m_defaultMaterial example_renderer)
                         (m_device example_renderer)) ∧
  unloadTexture "models/wood.png"
    (mk (<["models/wood.png" := 7%nat]> (m_textures example_renderer))
        (m_models example_renderer) (m_defaultMaterial example_renderer)
        (m_device example_renderer))
    = (true, example_renderer).
Proof.
  assert (Hmiss : m_textures example_renderer !! "models/wood.png" = None)
    by (by vm_compute).
  assert (Hload :
    loadTexture false example_CreateTexture "models/wood.png" example_renderer
    = Finished (true, mk (<["models/wood.png" := 7%nat]> (m_textures example_renderer))
                         (m_models example_renderer)
                         (m_defaultMaterial example_renderer)
                         (m_device example_renderer))).
  { unfold loadTexture. rewrite bool_decide_eq_false_2; [reflexivity|].
    rewrite Hmiss. by intros [? ?]. }
  split_and!; [exact Hmiss | exact Hload |].
  apply (texture_load_unload false example_CreateTexture "models/wood.png"
           example_renderer _ Hmiss Hload).
Defined.

Lemma loaded_materials_have_textures_witness :
  ∃ (model' : ModelData Z) (r' : t Z nat nat),
    loadModelFromFile 0 (λ x, 1 - x) false example_LoadObj example_CreateTexture
      example_parent_path example_path_append empty_model "models/tri.obj"
      example_renderer = Finished (true, model', r') ∧
    m_textures example_renderer ⊆ m_textures r' ∧
    ∃ new : list (Material Z),
      materials model' = materials empty_model ++ new ∧ length new = 2%nat.
Proof.
  destruct example_load_finishes as (model' & r' & Hload).
  exists model', r'. split; [exact Hload|].
  destruct (loaded_materials_have_textures 0 (λ x, 1 - x) false example_LoadObj
              example_CreateTexture example_parent_path example_path_append
              empty_model "models/tri.obj" example_renderer model' r' Hload)
    as (Hsub & obj & new & Hobj & Hnew & Hlen & _).
  split; [exact Hsub|]. exists new. split; [exact Hnew|].
  rewrite Hlen. injection Hobj as <-. reflexivity.
Defined.

Lemma loaded_indices_number_the_vertices_witness :
  ∃ (model' : ModelData Z) (r' : t Z nat nat) (new_vertices : list (Vertex Z))
    (new_meshes : list SubMesh),
    loadModelFromFile 0 (λ x, 1 - x) false example_LoadObj example_CreateTexture
      example_parent_path example_path_append empty_model "models/tri.obj"
      example_renderer = Finished (true, model', r') ∧
    vertices model' = vertices empty_model ++ new_vertices ∧
    concat (indices <$> new_meshes)
      = ((λ i : nat, to_uint (Z.of_nat i))
           <$> seq (length (vertices empty_model)) (length new_vertices)).
Proof.
  destruct example_load_finishes as (model' & r' & Hload).
  destruct (loaded_indices_number_the_vertices 0 (λ x, 1 - x) false example_LoadObj
              example_CreateTexture example_parent_path example_path_append
              empty_model "models/tri.obj" example_renderer model' r' Hload)
    as (obj & newv & newm & _ & Hv & _ & _ & Hcat & _).
  exists model', r', newv, newm. split_and!; [exact Hload | exact Hv | exact Hcat].
Defined.

Lemma loadModelFromFile_defined_witness :
  ∃ model' r',
    loadModelFromFile 0 (λ x, 1 - x) false example_LoadObj example_CreateTexture
      example_parent_path example_path_append empty_model "models/tri.obj"
      example_renderer = Finished (true, model', r').
Proof.
  apply (loadModelFromFile_defined 0 (λ x, 1 - x) false example_LoadObj
           example_CreateTexture example_parent_path example_path_append
           empty_model "models/tri.obj" example_renderer example_obj).
  - reflexivity.
  - reflexivity.
  - apply example_obj_readable.
Defined.

End RendererProofs.

(** ** GameController::run: when it returns *)

Module GameLoopMore.
Import GameController.

Section GameLoop.
Context {F M : Type} `{!SystemsManagerOps F M}.
Context (float_zero : F) (duration_count : Z → F).
Implicit Types (g : t F M) (fr : frame) (dt : F).

Lemma first_exit (frames : list frame) :
  Exists (λ fr, needToExit fr = true) frames →
  ∃ (before : list frame) (last : frame) (rest : list frame),
    frames = before ++ last :: rest ∧
    Forall (λ fr, needToExit fr = false) before ∧
    needToExit last = true.
Proof.
  induction frames as [|fr frames IH]; intros Hex; [by apply Exists_nil in Hex|].
  destruct (needToExit fr) eqn:Hfr.
  - exists [], fr, frames. split_and!; [done | constructor | done].
  - apply Exists_cons in Hex as [Hex|Hex]; [congruence|].
    destruct (IH Hex) as (before & last & rest & -> & Hbefore & Hlast).
    exists (fr :: before), last, rest. split_and!; [done | by constructor | done].
Qed.

Lemma run_loop_goes_on (frames : list frame) dt g :
  Forall (λ fr, needToExit fr = false) frames →
  run_loop duration_count frames dt g = OutOfFuel.
Proof.
  revert dt g. induction frames as [|fr frames IH]; intros dt g Hall; [done|].
  apply Forall_cons in Hall as [Hfr Hall].
  cbn [run_loop]. rewrite Hfr. cbn [now]. by apply IH.
Qed.

Lemma run_loop_ignores_rest (before : list frame) (last : frame)
    (rest rest' : list frame) dt g :
  Forall (λ fr, needToExit fr = false) before →
  needToExit last = true →
  run_loop duration_count (before ++ last :: rest) dt g
  = run_loop duration_count (before ++ last :: rest') dt g.
Proof.
  intros Hbefore Hlast. revert dt g.
  induction before as [|fr before IH]; intros dt g.
  - simpl. by rewrite Hlast.
  - apply Forall_cons in Hbefore as [Hfr Hbefore].
    cbn [app run_loop]. rewrite Hfr. cbn [now]. by apply IH.
Qed.

(** X10. [run] returns exactly when [m_window.update()] reports that
    the window is to close: if it does so for some frame, [run] returns
    and what the environment would do after that frame plays no part; as
    long as it does not, the loop goes on, and it has no other way out. *)
Theorem run_returns_on_exit_only (frames : list frame) g :
  (Exists (λ fr, needToExit fr = true) frames →
   ∃ (before : list frame) (last : frame) (rest : list frame) (g' : t F M),
     frames = before ++ last :: rest ∧
     Forall (λ fr, needToExit fr = false) before ∧
     needToExit last = true ∧
     run float_zero duration_count frames g = Ok g' ∧
     ∀ rest' : list frame,
       run float_zero duration_count (before ++ last :: rest') g = Ok g') ∧
  (Forall (λ fr, needToExit fr = false) frames →
   run float_zero duration_count frames g = OutOfFuel).
Proof.
  split.
  - intros (before & last & rest & -> & Hbefore & Hlast)%first_exit.
    destruct (GameLoopProofs.run_loop_exits duration_count before last rest
                float_zero g Hbefore Hlast) as (g1 & Hg1 & _).
    exists before, last, rest, (called Stop 0 sm_stop g1).
    split_and!; [done | done | done | |].
    + unfold run. by rewrite Hg1, bind_Ok.
    + intros rest'. unfold run.
      rewrite (run_loop_ignores_rest before last rest' rest) by done.
      by rewrite Hg1, bind_Ok.
  - intros Hall. unfold run. by rewrite run_loop_goes_on.
Qed.

End GameLoop.

Lemma run_returns_on_exit_only_witness :
  run 0 (λ ticks, ticks) [Frame false 3 1 1 16; Frame false 2 1 1 17]
    (mk ([] : list Z) 100 []) = OutOfFuel.
Proof.
  destruct (run_returns_on_exit_only 0 (λ ticks, ticks)
              [Frame false 3 1 1 16; Frame false 2 1 1 17]
              (mk ([] : list Z) 100 [])) as [_ Hon].
  apply Hon. repeat constructor.
Defined.

End GameLoopMore.

(** ** DirectXRenderer: the model cache *)

Module ModelCacheProofs.
Import Renderer.

Section ModelCache.
Context {F Tex Device : Type}.
Context (float_zero : F) (one_minus : F → F).
Context (assert_aborts : bool).
Context (LoadObj : string → string → option (tinyobj.loaded F)).
Context (CreateWICTextureFromFile : string → option Tex).
Context (parent_path : string → string) (path_append : string → string → string).
Context (CreateBuffer : Device → nat → bool * Device).
Context (getModelKeys : gmap string (ModelData F) → list string).
Context (getTextureKeys : gmap string Tex → list string).
Implicit Types (r : t F Tex Device) (model : ModelData F) (filename : string).

#[local] Abbreviation loadModelFromFile :=
  (loadModelFromFile float_zero one_minus assert_aborts LoadObj
     CreateWICTextureFromFile parent_path path_append).
#[local] Abbreviation loadModel :=
  (loadModel float_zero one_minus assert_aborts LoadObj
     CreateWICTextureFromFile parent_path path_append CreateBuffer).
#[local] Abbreviation cleanUp := (cleanUp getModelKeys getTextureKeys).

Lemma loadModelFromFile_result model filename r (loaded : bool) model' r' :
  loadModelFromFile model filename r = Finished (loaded, model', r') →
  m_textures r ⊆ m_textures r' ∧ m_models r' = m_models r ∧
  m_defaultMaterial r' = m_defaultMaterial r ∧ m_device r' = m_device r ∧
  if loaded then
    ∃ (new_vertices : list (Vertex F)) (new_meshes : list SubMesh),
      vertices model' = vertices model ++ new_vertices ∧
      meshes model' = meshes model ++ new_meshes ∧
      concat (indices <$> new_meshes)
        = ((λ i : nat, to_uint (Z.of_nat i))
             <$> seq (length (vertices model)) (length new_vertices))
  else model' = model ∧ r' = r.
Proof.
  destruct loaded.
  - intros (obj & model1 & Hobj & Hmats & Hshapes)%RendererProofs.loadModelFromFile_Finished.
    apply RendererProofs.load_materials_Finished in Hmats
      as (Hv1 & Hm1 & Hsub & Hdef & Hmod & Hdev & _).
    apply RendererProofs.load_shapes_Finished in Hshapes
      as (_ & newv & newm & Hv & Hm & _ & Hcat).
    rewrite Hv1 in Hv, Hcat. rewrite Hm1 in Hm.
    split_and!; try done. eauto.
  - unfold Renderer.loadModelFromFile. intros Hload.
    apply RendererProofs.ending_bind_Finished in Hload as (u & _ & Hload).
    destruct (LoadObj filename (parent_path filename)) as [obj|].
    + apply RendererProofs.ending_bind_Finished in Hload as ([model1 r1] & _ & Hload).
      apply RendererProofs.ending_bind_Finished in Hload as (model2 & _ & Hload).
      discriminate.
    + by injection Hload as <- <-.
Qed.

(** X15. [loadModel] keeps the model cache sound. The models in the
    cache stay those whose mesh indices number their vertices; a model
    that is in the cache is not loaded again and nothing changes; the
    result is [true] exactly when the file is in the cache afterwards, no
    other entry changes, and on [false] the cache of models is as before.
    Textures loaded on the way stay in the texture cache in either
    case. *)
Theorem loadModel_keeps_cache_sound filename r (loaded : bool) r' :
  (∀ f model, m_models r !! f = Some model → indexed model) →
  loadModel filename r = Finished (loaded, r') →
  (∀ f model, m_models r' !! f = Some model → indexed model) ∧
  (loaded = true ↔ is_Some (m_models r' !! filename)) ∧
  (∀ f, f ≠ filename → m_models r' !! f = m_models r !! f) ∧
  (loaded = false → m_models r' = m_models r) ∧
  (is_Some (m_models r !! filename) → loaded = true ∧ r' = r) ∧
  m_textures r ⊆ m_textures r'.
Proof.
  intros Hinv. unfold Renderer.loadModel. case_bool_decide as Hhit.
  { intros [= <- <-]. split_and!; try done. }
  intros Hload.
  apply RendererProofs.ending_bind_Finished in Hload
    as ([[ld modelData] r1] & Hfile & Hload).
  apply loadModelFromFile_result in Hfile as (Hsub & Hmod & Hdef & Hdev & Hres).
  assert (Hmiss : m_models r !! filename = None) by (by apply eq_None_not_Some).
  destruct ld.
  - apply RendererProofs.ending_bind_Finished in Hload
      as ([created device] & _ & Hload).
    destruct Hres as (newv & newm & Hv & Hm & Hcat). simpl in Hv, Hm, Hcat.
    destruct created; injection Hload as <- <-; simpl; rewrite ?Hmod.
    + split_and!; try done.
      * intros f model. destruct (decide (f = filename)) as [->|Hne].
        -- rewrite lookup_insert_eq. intros [= <-].
           unfold indexed. by rewrite Hv, Hm.
        -- rewrite lookup_insert_ne by done. apply Hinv.
      * rewrite lookup_insert_eq. split; eauto.
      * intros f Hne. by rewrite lookup_insert_ne.
    + by split_and!.
  - destruct Hres as [_ ->]. injection Hload as <- <-.
    by split_and!.
Qed.

Lemma unload_models (keys : list string) r :
  let r' := foldl (λ r modelId, (unloadModel modelId r).2) r keys in
  m_textures r' = m_textures r ∧
  m_defaultMaterial r' = m_defaultMaterial r ∧ m_device r' = m_device r ∧
  ∀ f, m_models r' !! f = if decide (f ∈ keys) then None else m_models r !! f.
Proof.
  revert r. induction keys as [|k keys IH]; intros r; simpl.
  - split_and!; try done.
  - destruct (IH (unloadModel k r).2) as (-> & -> & -> & Hmodels).
    assert (Hstep : m_textures (unloadModel k r).2 = m_textures r ∧
                    m_defaultMaterial (unloadModel k r).2 = m_defaultMaterial r ∧
                    m_device (unloadModel k r).2 = m_device r ∧
                    m_models (unloadModel k r).2 = delete k (m_models r)).
    { unfold unloadModel. destruct (m_models r !! k) eqn:Hk; simpl;
        split_and!; try done. by rewrite delete_id. }
    destruct Hstep as (-> & -> & -> & Hdel). split_and!; try done.
    intros f. rewrite Hmodels, Hdel.
    destruct (decide (f = k)) as [->|Hne].
    + rewrite (decide_True (P := k ∈ k :: keys)) by (by left).
      case_decide; [done | apply lookup_delete_eq].
    + rewrite lookup_delete_ne by done.
      repeat case_decide; try done.
      * exfalso. by apply H0; right.
      * exfalso. by apply elem_of_cons in H0 as [?|?].
Qed.

Lemma unload_textures (keys : list string) r :
  let r' := foldl (λ r textureId, (unloadTexture textureId r).2) r keys in
  m_models r' = m_models r ∧
  m_defaultMaterial r' = m_defaultMaterial r ∧ m_device r' = m_device r ∧
  ∀ f, m_textures r' !! f = if decide (f ∈ keys) then None else m_textures r !! f.
Proof.
  revert r. induction keys as [|k keys IH]; intros r; simpl.
  - split_and!; try done.
  - destruct (IH (unloadTexture k r).2) as (-> & -> & -> & Htex).
    assert (Hstep : m_models (unloadTexture k r).2 = m_models r ∧
                    m_defaultMaterial (unloadTexture k r).2 = m_defaultMaterial r ∧
                    m_device (unloadTexture k r).2 = m_device r ∧
                    m_textures (unloadTexture k r).2 = delete k (m_textures r)).
    { unfold unloadTexture. destruct (m_textures r !! k) eqn:Hk; simpl;
        split_and!; try done. by rewrite delete_id. }
    destruct Hstep as (-> & -> & -> & Hdel). split_and!; try done.
    intros f. rewrite Htex, Hdel.
    destruct (decide (f = k)) as [->|Hne].
    + rewrite (decide_True (P := k ∈ k :: keys)) by (by left).
      case_decide; [done | apply lookup_delete_eq].
    + rewrite lookup_delete_ne by done.
      repeat case_decide; try done.
      * exfalso. by apply H0; right.
      * exfalso. by apply elem_of_cons in H0 as [?|?].
Qed.

(** X16. When [Utils::getKeys] lists every key of a map, [cleanUp]
    leaves both caches empty, whatever was loaded. *)
Theorem cleanUp_empties_caches r :
  (∀ models f, is_Some (models !! f) → f ∈ getModelKeys models) →
  (∀ textures f, is_Some (textures !! f) → f ∈ getTextureKeys textures) →
  m_models (cleanUp r) = ∅ ∧ m_textures (cleanUp r) = ∅ ∧
  m_defaultMaterial (cleanUp r) = m_defaultMaterial r.
Proof.
  intros Hmk Htk. unfold Renderer.cleanUp.
  destruct (unload_models (getModelKeys (m_models r)) r) as (Ht1 & Hd1 & _ & Hm1).
  set (r1 := foldl (λ r modelId, (unloadModel modelId r).2) r
               (getModelKeys (m_models r))) in *.
  destruct (unload_textures (getTextureKeys (m_textures r1)) r1)
    as (Hm2 & Hd2 & _ & Ht2).
  cbv zeta. split_and!.
  - rewrite Hm2. apply map_empty. intros f. rewrite Hm1.
    case_decide as Hin; [done|]. apply eq_None_not_Some. intros Hf.
    by apply Hin, Hmk.
  - apply map_empty. intros f. rewrite Ht2.
    case_decide as Hin; [done|]. apply eq_None_not_Some. intros Hf.
    by apply Hin, Htk.
  - by rewrite Hd2, Hd1.
Qed.

Lemma create_material_buffers_finishes (mats : list (Material F)) (device : Device) :
  assert_aborts = false →
  ∃ device', create_material_buffers assert_aborts CreateBuffer mats device
             = Finished device'.
Proof.
  intros Hno. revert device. induction mats as [|mat mats IH]; intros device; simpl.
  - eauto.
  - destruct (CreateBuffer device 1) as [created device1].
    rewrite (RendererProofs.ASSERT_continues _ _ Hno). simpl. apply IH.
Qed.

Lemma create_index_buffers_finishes (subMeshes : list SubMesh) (device : Device) :
  assert_aborts = false →
  ∃ res, create_index_buffers assert_aborts CreateBuffer subMeshes device
         = Finished res.
Proof.
  intros Hno. revert device.
  induction subMeshes as [|subMesh subMeshes IH]; intros device; simpl.
  - eauto.
  - destruct (CreateBuffer device (length (indices subMesh))) as [created device1].
    rewrite (RendererProofs.ASSERT_continues _ _ Hno). simpl.
    destruct created; [apply IH | eauto].
Qed.

Lemma createBuffersForModel_finishes model (device : Device) :
  assert_aborts = false →
  ∃ res, createBuffersForModel assert_aborts CreateBuffer model device
         = Finished res.
Proof.
  intros Hno. unfold createBuffersForModel.
  destruct (CreateBuffer device (length (vertices model))) as [created device1].
  rewrite (RendererProofs.ASSERT_continues _ _ Hno). simpl.
  destruct created; [|eauto].
  destruct (create_material_buffers_finishes (materials model) device1 Hno)
    as [device2 ->]. simpl.
  by apply create_index_buffers_finishes.
Qed.

Lemma loadModel_finishes filename r (obj : tinyobj.loaded F) :
  assert_aborts = false →
  LoadObj filename (parent_path filename) = Some obj →
  Forall (λ shape, Forall (readable (tinyobj.attrib obj)) (tinyobj.indices shape))
    (tinyobj.shapes obj) →
  ∃ loaded r', loadModel filename r = Finished (loaded, r').
Proof.
  intros Hno Hobj Hall. unfold Renderer.loadModel.
  case_bool_decide; [eauto|].
  destruct (RendererProofs.loadModelFromFile_finishes float_zero one_minus
              assert_aborts LoadObj CreateWICTextureFromFile parent_path path_append
              (mkModelData [] [] []) filename r obj Hno Hobj Hall)
    as (modelData & r1 & ->). simpl.
  destruct (createBuffersForModel_finishes modelData (m_device r1) Hno)
    as [[created device] ->]. simpl.
  destruct created; eauto.
Qed.

End ModelCache.

Lemma loadModel_keeps_cache_sound_witness :
  ∃ (loaded : bool) (r' : t Z nat nat),
    Renderer.loadModel 0 (λ x, 1 - x) false example_LoadObj example_CreateTexture
      example_parent_path example_path_append example_CreateBuffer
      "models/tri.obj" example_renderer = Finished (loaded, r') ∧
    (loaded = true ↔ is_Some (m_models r' !! "models/tri.obj")) ∧
    (∀ f model, m_models r' !! f = Some model → indexed model).
Proof.
  destruct (loadModel_finishes 0 (λ x, 1 - x) false example_LoadObj
              example_CreateTexture example_parent_path example_path_append
              example_CreateBuffer "models/tri.obj" example_renderer example_obj
              eq_refl eq_refl RendererProofs.example_obj_readable)
    as (loaded & r' & Hload).
  exists loaded, r'. split; [exact Hload|].
  assert (Hinv : ∀ f (model : ModelData Z),
            m_models example_renderer !! f = Some model → indexed model).
  { intros f model Hf. change (m_models example_renderer) with
      (∅ : gmap string (ModelData Z)) in Hf. by rewrite lookup_empty in Hf. }
  destruct (loadModel_keeps_cache_sound 0 (λ x, 1 - x) false example_LoadObj
              example_CreateTexture example_parent_path example_path_append
              example_CreateBuffer "models/tri.obj" example_renderer loaded r'
              Hinv Hload) as (Hsound & Hres & _).
  split; [exact Hres | exact Hsound].
Defined.

Lemma cleanUp_empties_caches_witness :
  m_models (Renderer.cleanUp (λ models, (map_to_list models).*1)
              (λ textures, (map_to_list textures).*1) example_renderer) = ∅ ∧
  m_textures (Renderer.cleanUp (λ models, (map_to_list models).*1)
                (λ textures, (map_to_list textures).*1) example_renderer) = ∅.
Proof.
  destruct (cleanUp_empties_caches (λ models, (map_to_list models).*1)
              (λ textures, (map_to_list textures).*1) example_renderer)
    as (Hmodels & Htextures & _).
  - intros models f [model Hf]. apply list_elem_of_fmap.
    exists (f, model). split; [done|]. by apply elem_of_map_to_list.
  - intros textures f [texture Hf]. apply list_elem_of_fmap.
    exists (f, texture). split; [done|]. by apply elem_of_map_to_list.
  - split; [exact Hmodels | exact Htextures].
Defined.

End ModelCacheProofs.
